(** * AoikLiveReload: the live reloader of [aoiklivereload.py]

  A shallow embedding of the class [LiveReloader] and the proofs of the
  properties stated about it.  Python sets are [gset]s, the registration
  dictionary is a [gmap], and the prefix tree built by
  [_find_short_paths] is a tree of association lists in insertion order,
  as a Python [dict] is.  The platform is POSIX: [os.path.sep] is ["/"]. *)

From Stdlib Require Import Ascii String.
From stdpp Require Import base option list sets gmap strings sorting.

#[local] Set Warnings "-clear-no-such-hyp".


(** ** Python string operations used by the reloader *)

Module PyStr.

(** [os.path.sep] on POSIX. *)
Definition os_path_sep : ascii := "/"%char.

(** [s.split(sep)] for a one-character separator: the pieces between the
    occurrences of [sep]; never the empty list. *)
Fixpoint split (sep : ascii) (s : string) : list string :=
  match s with
  | EmptyString => [EmptyString]
  | String c s' =>
      if Ascii.eqb c sep then EmptyString :: split sep s'
      else match split sep s' with
           | [] => [String c EmptyString]
           | part :: parts => String c part :: parts
           end
  end.

(** ['/'.join(parts)]. *)
Definition join (parts : list string) : string := String.concat "/" parts.

(** [s.startswith(p)]. *)
Definition startswith (s p : string) : bool := String.prefix p s.

(** [s.startswith(tuple(ps))]: some member of [ps] is a prefix of [s]. *)
Definition startswith_any (s : string) (ps : list string) : bool :=
  existsb (startswith s) ps.

(** [s.endswith(p)]. *)
Definition endswith (s p : string) : bool :=
  let n := String.length s in
  let m := String.length p in
  (m <=? n)%nat && String.eqb (String.substring (n - m) m s) p.

(** [s.endswith(tuple(ps))]. *)
Definition endswith_any (s : string) (ps : list string) : bool :=
  existsb (endswith s) ps.

(** [s[:-1]]. *)
Definition drop_last (s : string) : string :=
  String.substring 0 (String.length s - 1) s.

(** Whether ["/"] occurs in [s]. *)
Fixpoint has_sep (s : string) : bool :=
  match s with
  | EmptyString => false
  | String c s' => Ascii.eqb c os_path_sep || has_sep s'
  end.

(** [p[:p.rfind('/') + 1]]: everything up to and including the last
    separator, the empty string when there is none. *)
Fixpoint head_of (p : string) : string :=
  match p with
  | EmptyString => EmptyString
  | String c p' => if has_sep p then String c (head_of p') else EmptyString
  end.

(** [s.rstrip('/')]. *)
Fixpoint rstrip_sep (s : string) : string :=
  match s with
  | EmptyString => EmptyString
  | String c s' =>
      match rstrip_sep s' with
      | EmptyString => if Ascii.eqb c os_path_sep then EmptyString
                       else String c EmptyString
      | r => String c r
      end
  end.

(** [s == '/' * len(s)]. *)
Fixpoint all_sep (s : string) : bool :=
  match s with
  | EmptyString => true
  | String c s' => Ascii.eqb c os_path_sep && all_sep s'
  end.

(** [posixpath.dirname]:
    [head = p[:p.rfind('/')+1]; if head and head != '/'*len(head):
     head = head.rstrip('/'); return head]. *)
Definition dirname (p : string) : string :=
  let head := head_of p in
  if negb (String.eqb head EmptyString) && negb (all_sep head)
  then rstrip_sep head else head.

End PyStr.

(** ** PathSetComputer: [_find_short_paths] and [_collect_leaf_paths] *)

Module PathSet.
Import PyStr.

#[local] Unset Elimination Schemes.

(** A node of the prefix tree: a [dict] from a path part to the child
    node, in insertion order. *)
Inductive node : Type :=
| Node (items : list (string * node)).

#[local] Set Elimination Schemes.

Definition items (n : node) : list (string * node) :=
  let 'Node its := n in its.

(** The effect on the parent [dict] of [child = node.setdefault(part, {})]
    followed by the in-place update [f] of [child]: the child under [part]
    is updated where it is, and created at the end when it is missing. *)
Fixpoint setdefault (part : string) (f : node -> node)
    (its : list (string * node)) : list (string * node) :=
  match its with
  | [] => [(part, f (Node []))]
  | (k, child) :: rest =>
      if String.eqb k part then (k, f child) :: rest
      else (k, child) :: setdefault part f rest
  end.

(** The body of the loop over the sorted paths: walk down from [n] along
    [parts], creating the missing nodes, and [clear()] the node reached. *)
Fixpoint insert_parts (parts : list string) (n : node) : node :=
  match parts with
  | [] => Node []
  | part :: parts' =>
      Node (setdefault part (insert_parts parts') (items n))
  end.

(** [sorted(path_parts_s, key=len, reverse=True)]: a stable sort, the
    longest first; equal lengths keep their order. *)
Fixpoint insert_by_len (x : list string) (l : list (list string))
    : list (list string) :=
  match l with
  | [] => [x]
  | y :: l' =>
      if (length x <? length y)%nat then y :: insert_by_len x l'
      else x :: y :: l'
  end.

Definition sorted_longest_first (l : list (list string))
    : list (list string) :=
  foldr insert_by_len [] l.

(** [_collect_leaf_paths(node, path_parts, leaf_paths)]; the set
    [leaf_paths] is threaded through the calls. *)
Fixpoint _collect_leaf_paths (n : node) (path_parts : list string)
    (leaf_paths : gset string) : gset string :=
  match n with
  | Node [] => {[ join path_parts ]} ∪ leaf_paths
  | Node its =>
      fold_left
        (fun acc kc => _collect_leaf_paths (snd kc) (path_parts ++ [fst kc]) acc)
        its leaf_paths
  end.

(** [_find_short_paths(paths)]; [paths] lists the given set in the order
    in which Python iterates over it. *)
Definition _find_short_paths (paths : list string) : gset string :=
  let path_parts_s := map (split os_path_sep) paths in
  let root_node :=
    fold_left (fun root parts => insert_parts parts root)
              (sorted_longest_first path_parts_s) (Node []) in
  _collect_leaf_paths root_node [] ∅.

End PathSet.


(** ** The reloader object, its collaborators and its effects *)

Module Reloader.
Import PyStr PathSet.

(** Reload mode constants. *)
Definition RELOAD_MODE_V_EXEC : string := "exec".
Definition RELOAD_MODE_V_SPAWN_EXIT : string := "spawn_exit".
Definition RELOAD_MODE_V_SPAWN_WAIT : string := "spawn_wait".

Definition RELOAD_MODE_VALUES : list string :=
  [RELOAD_MODE_V_EXEC; RELOAD_MODE_V_SPAWN_EXIT; RELOAD_MODE_V_SPAWN_WAIT].

(** The attributes of a [LiveReloader] instance. *)
Record LiveReloader : Type := mkLiveReloader {
  _reload_mode : string;
  _force_exit : bool;
  _extra_paths : gset string;
  _interval : Z;
  _watch_paths : gset string;
  _watcher_to_stop : bool
}.

(** What the reloader reads from the interpreter and the operating system:
    [sys.platform], [sys.executable], [sys.argv], [os.environ],
    [os.path.abspath] (which depends on the working directory), and whether
    the process-control calls succeed. *)
Record host : Type := mkHost {
  sys_platform : string;
  sys_executable : string;
  sys_argv : list string;
  os_environ : list (string * string);
  abspath : string -> string;
  execvpe_ok : bool;
  popen_ok : bool
}.

(** A watch object returned by [observer.schedule]; a table entry is a
    watch object or [None]. *)
Definition watch : Type := nat.

(** The exceptions the code raises or catches.  [ValueError] carries the
    reload mode that its message
    ['Invalid reload mode: {}.'.format(repr(reload_mode))] reports. *)
Inductive exn : Type :=
| ValueError (reload_mode : string)
| OSError
| SystemExit (code : Z).

(** How a call ends when it does not return: an exception propagates, the
    process image is replaced by [os.execvpe], or the process is ended by
    [os._exit]. *)
Inductive stop : Type :=
| Raised (e : exn)
| ProcessReplaced
| ProcessExited (code : Z).

Inductive result (A : Type) : Type :=
| Done (a : A)
| Stop (s : stop).
Arguments Done {A} a.
Arguments Stop {A} s.

(** The calls made on the collaborators, in the order they are made.
    [CallReload] marks an entry into [LiveReloader.reload]; [Schedule]
    records the watch object returned, or [None] when the call raised. *)
Inductive event : Type :=
| CallReload
| Execvpe (file : string) (args : list string) (env : list (string * string))
| Popen (args : list string) (env : list (string * string))
| WaitChild
| OsExit (code : Z)
| InterruptMain
| ObserverStart
| Schedule (path : string) (recursive : bool) (returned : option watch)
| Unschedule (watch_obj : option watch)
| Sleep (seconds : Z).

#[global] Instance event_eq_dec : EqDecision event.
Proof. solve_decision. Defined.

(** The state the code runs in: the instance, the calls made so far and the
    next watch object the observer will hand out. *)
Record world : Type := mkWorld {
  self : LiveReloader;
  log : list event;
  next_watch : watch
}.

(** A computation that reads and writes the world and returns or stops. *)
Definition M (A : Type) : Type := world -> result A * world.

Definition ret {A} (a : A) : M A := fun w => (Done a, w).

Definition bind {A B} (m : M A) (k : A -> M B) : M B :=
  fun w =>
    match m w with
    | (Done a, w') => k a w'
    | (Stop s, w') => (Stop s, w')
    end.

Declare Scope reload_scope.
Delimit Scope reload_scope with reload.
Notation "x <- m ;; k" := (bind m (fun x => k))
  (at level 100, m at next level, right associativity) : reload_scope.
Notation "m ;; k" := (bind m (fun _ => k))
  (at level 100, right associativity) : reload_scope.
Local Open Scope reload_scope.

Definition raise {A} (e : exn) : M A := fun w => (Stop (Raised e), w).

Definition halt {A} (s : stop) : M A := fun w => (Stop s, w).

Definition get_self : M LiveReloader := fun w => (Done (self w), w).

Definition put_self (r : LiveReloader) : M unit :=
  fun w => (Done tt, mkWorld r (log w) (next_watch w)).

Definition tell (e : event) : M unit :=
  fun w => (Done tt, mkWorld (self w) (log w ++ [e]) (next_watch w)).

(** [try: body / except OSError: handler]. *)
Definition try_except_OSError {A} (body handler : M A) : M A :=
  fun w =>
    match body w with
    | (Stop (Raised OSError), w') => handler w'
    | r => r
    end.

(** [for x in xs: st = body(x, st)]. *)
Fixpoint for_each {A S} (xs : list A) (body : A -> S -> M S) (st : S) : M S :=
  match xs with
  | [] => ret st
  | x :: xs' => st' <- body x st ;; for_each xs' body st'
  end.

(** [LiveReloader.__init__]. *)
Definition __init__ (h : host) (reload_mode : option string)
    (force_exit : bool) (extra_paths : option (list string)) (interval : Z)
    : exn + LiveReloader :=
  let reload_mode :=
    match reload_mode with
    | None =>
        if String.eqb (sys_platform h) "win32" then RELOAD_MODE_V_SPAWN_WAIT
        else RELOAD_MODE_V_EXEC
    | Some mode => mode
    end in
  if bool_decide (reload_mode ∉ RELOAD_MODE_VALUES) then
    inl (ValueError reload_mode)
  else
    inr {| _reload_mode := reload_mode;
           _force_exit := force_exit;
           _extra_paths := list_to_set (map (abspath h) (default [] extra_paths));
           _interval := interval;
           _watch_paths := ∅;
           _watcher_to_stop := false |}.

(** [reload_using_exec]. *)
Definition reload_using_exec (h : host) : M unit :=
  let cmd_parts := sys_executable h :: sys_argv h in
  let env_copy := os_environ h in
  tell (Execvpe (sys_executable h) cmd_parts env_copy) ;;
  if execvpe_ok h then halt ProcessReplaced else raise OSError.

(** [subprocess.Popen(cmd_parts, env=env_copy, close_fds=True)]. *)
Definition subprocess_Popen (h : host) (cmd_parts : list string)
    (env : list (string * string)) : M unit :=
  tell (Popen cmd_parts env) ;;
  if popen_ok h then ret tt else raise OSError.

(** [subprocess.call(cmd_parts, env=env_copy, close_fds=True)]: start the
    child and wait until it finishes. *)
Definition subprocess_call (h : host) (cmd_parts : list string)
    (env : list (string * string)) : M unit :=
  subprocess_Popen h cmd_parts env ;;
  tell WaitChild.

(** [reload_using_spawn_exit]. *)
Definition reload_using_spawn_exit (h : host) : M unit :=
  let cmd_parts := sys_executable h :: sys_argv h in
  let env_copy := os_environ h in
  subprocess_Popen h cmd_parts env_copy ;;
  r <- get_self ;;
  (if _force_exit r then
     tell (OsExit 0) ;; halt (ProcessExited 0)
   else
     tell InterruptMain) ;;
  r <- get_self ;;
  put_self (mkLiveReloader (_reload_mode r) (_force_exit r) (_extra_paths r)
              (_interval r) (_watch_paths r) true) ;;
  raise (SystemExit 0).

(** [reload_using_spawn_wait]. *)
Definition reload_using_spawn_wait (h : host) : M unit :=
  let cmd_parts := sys_executable h :: sys_argv h in
  let env_copy := os_environ h in
  tell InterruptMain ;;
  subprocess_call h cmd_parts env_copy ;;
  raise (SystemExit 0).

(** [reload]. *)
Definition reload (h : host) : M unit :=
  tell CallReload ;;
  r <- get_self ;;
  let reload_mode := _reload_mode r in
  if String.eqb (_reload_mode r) RELOAD_MODE_V_EXEC then
    reload_using_exec h
  else if String.eqb (_reload_mode r) RELOAD_MODE_V_SPAWN_EXIT then
    reload_using_spawn_exit h
  else if String.eqb (_reload_mode r) RELOAD_MODE_V_SPAWN_WAIT then
    reload_using_spawn_wait h
  else
    raise (ValueError reload_mode).

(** A file system event; only [src_path] is read. *)
Record fs_event : Type := mkEvent { src_path : string }.

(** [dispatch]. *)
Definition dispatch (h : host) (event : fs_event) : M unit :=
  let file_path := src_path event in
  r <- get_self ;;
  (if bool_decide (file_path ∈ _extra_paths r) then reload h else ret tt) ;;
  let file_path :=
    if endswith_any file_path [".pyc"; ".pyo"] then drop_last file_path
    else file_path in
  if endswith file_path ".py" then
    let file_dir := dirname file_path in
    r <- get_self ;;
    if startswith_any file_dir (elements (_watch_paths r)) then reload h
    else ret tt
  else ret tt.

End Reloader.

(** ** WatchSynchronizer: [_find_watch_paths] and [run_watcher] *)

Module Watcher.
Import PyStr PathSet Reloader.
Local Open Scope reload_scope.

(** What one iteration of the watcher loop meets: [sys.path], the
    [__file__] of every module of [sys.modules] ([None] when it has none),
    the order in which a set is iterated, and whether [observer.schedule]
    succeeds for a path. *)
Record tick : Type := mkTick {
  sys_path : list string;
  sys_modules : list (option string);
  set_order : gset string -> list string;
  can_watch : string -> bool
}.

(** [_find_watch_paths]. *)
Definition _find_watch_paths (h : host) (r : LiveReloader) (t : tick)
    : gset string :=
  let watch_path_s : gset string := list_to_set (map (abspath h) (sys_path t)) in
  let watch_path_s :=
    fold_left
      (fun acc extra_path =>
         let extra_dir_path := dirname (abspath h extra_path) in
         {[ extra_dir_path ]} ∪ acc)
      (set_order t (_extra_paths r)) watch_path_s in
  let watch_path_s :=
    fold_left
      (fun acc module_path =>
         match module_path with
         | Some module_path =>
             let module_dir_path := dirname (abspath h module_path) in
             {[ module_dir_path ]} ∪ acc
         | None => acc
         end)
      (sys_modules t) watch_path_s in
  _find_short_paths (set_order t watch_path_s).

(** [observer.schedule(self, path, recursive=True)]: a fresh watch object,
    or [OSError]. *)
Definition observer_schedule (t : tick) (path : string) (recursive : bool)
    : M watch :=
  fun w =>
    if can_watch t path then
      (Done (next_watch w),
       mkWorld (self w)
               (log w ++ [Schedule path recursive (Some (next_watch w))])
               (S (next_watch w)))
    else
      (Stop (Raised OSError),
       mkWorld (self w) (log w ++ [Schedule path recursive None])
               (next_watch w)).

(** [observer.unschedule(watch_obj)]. *)
Definition observer_unschedule (watch_obj : option watch) : M unit :=
  tell (Unschedule watch_obj).

(** The body of [for new_watch_path in new_watch_path_s], on the local
    variables [old_watch_path_s] and [watche_obj_map]. *)
Definition register_step (t : tick) (new_watch_path : string)
    (st : gset string * gmap string (option watch))
    : M (gset string * gmap string (option watch)) :=
  let old_watch_path_s := st.1 ∖ {[ new_watch_path ]} in
  let watche_obj_map := st.2 in
  if bool_decide (new_watch_path ∉ dom watche_obj_map) then
    try_except_OSError
      (watch_obj <- observer_schedule t new_watch_path true ;;
       ret (old_watch_path_s, <[new_watch_path := Some watch_obj]> watche_obj_map))
      (ret (old_watch_path_s, <[new_watch_path := None]> watche_obj_map))
  else ret (old_watch_path_s, watche_obj_map).

(** The body of [for old_watch_path in old_watch_path_s]. *)
Definition unregister_step (old_watch_path : string)
    (watche_obj_map : gmap string (option watch))
    : M (gmap string (option watch)) :=
  let watch_obj := default None (watche_obj_map !! old_watch_path) in
  let watche_obj_map := delete old_watch_path watche_obj_map in
  if bool_decide (watch_obj <> None) then
    observer_unschedule watch_obj ;; ret watche_obj_map
  else ret watche_obj_map.

(** One iteration of the [while] loop of [run_watcher]: a reconciliation
    pass, the publication of the new watch paths and the sleep.
    [time.sleep] is taken to return: called with an interval it refuses (a
    negative one, say) it raises, and the exception ends the loop. *)
Definition watch_pass (h : host) (t : tick)
    (watche_obj_map : gmap string (option watch))
    : M (gmap string (option watch)) :=
  let old_watch_path_s : gset string := dom watche_obj_map in
  r <- get_self ;;
  let new_watch_path_s := _find_watch_paths h r t in
  st <- for_each (set_order t new_watch_path_s) (register_step t)
                 (old_watch_path_s, watche_obj_map) ;;
  watche_obj_map <- for_each (set_order t st.1) unregister_step st.2 ;;
  r <- get_self ;;
  put_self (mkLiveReloader (_reload_mode r) (_force_exit r) (_extra_paths r)
              (_interval r) new_watch_path_s (_watcher_to_stop r)) ;;
  tell (Sleep (_interval r)) ;;
  ret watche_obj_map.

(** [while not self._watcher_to_stop: ...], for the iterations [ticks]. *)
Fixpoint watch_loop (h : host) (ticks : list tick)
    (watche_obj_map : gmap string (option watch))
    : M (gmap string (option watch)) :=
  match ticks with
  | [] => ret watche_obj_map
  | t :: ticks' =>
      r <- get_self ;;
      if _watcher_to_stop r then ret watche_obj_map
      else
        watche_obj_map <- watch_pass h t watche_obj_map ;;
        watch_loop h ticks' watche_obj_map
  end.

(** [run_watcher]; the table [watche_obj_map], a local variable of the
    function, is returned so that it can be observed.  [observer.start()]
    is taken to return: an exception of its own would leave the function
    before the loop is entered. *)
Definition run_watcher (h : host) (ticks : list tick)
    : M (gmap string (option watch)) :=
  tell ObserverStart ;;
  watch_loop h ticks ∅.

End Watcher.

(** ** The watcher thread: [start_watcher_thread] *)

Module WatcherThread.
Import Reloader Watcher.

(** The attributes of the [threading.Thread] the method returns: its target
    (the watcher loop of the instance), whether it is a daemon thread, and
    whether it was started. *)
Record Thread : Type := mkThread {
  target : host -> list tick -> M (gmap string (option watch));
  daemon : bool;
  started : bool
}.

(** [start_watcher_thread]: the thread is created with the watcher loop as
    its target, made a daemon or not by the reload mode, started and
    returned. *)
Definition start_watcher_thread (r : LiveReloader) : Thread :=
  let daemon :=
    if String.eqb (_reload_mode r) RELOAD_MODE_V_SPAWN_WAIT then false
    else true in
  mkThread run_watcher daemon true.

End WatcherThread.

(** ** PathSetComputer: the notions its properties are stated with *)

Module PathSetSpec.
Import PyStr PathSet.

(** The leaves of a prefix tree, as the sequences of parts that lead to
    them; the empty [dict] is a leaf itself. *)
Inductive leaf : node -> list string -> Prop :=
| leaf_here : leaf (Node []) []
| leaf_under k c its q :
    (k, c) ∈ its -> leaf c q -> leaf (Node its) (k :: q).

#[local] Unset Elimination Schemes.

(** A Python [dict] holds a key once, at every level of the tree. *)
Inductive wf : node -> Prop :=
| wf_Node its :
    NoDup (map fst its) -> Forall (fun kc => wf (snd kc)) its -> wf (Node its).

#[local] Set Elimination Schemes.

(** [node.get(part)]. *)
Fixpoint child (part : string) (its : list (string * node)) : option node :=
  match its with
  | [] => None
  | (k, c) :: rest => if String.eqb k part then Some c else child part rest
  end.

(** The longest sequences come first. *)
Definition longest_first (l : list (list string)) : Prop :=
  StronglySorted (fun a b : list string => length b <= length a) l.

(** A member of [seen] no other member of which is a prefix. *)
Definition minimal (seen : list (list string)) (q : list string) : Prop :=
  q ∈ seen /\ forall p, p ∈ seen -> p `prefix_of` q -> p = q.

(** The tree reached once the paths [seen] are inserted: its leaves are the
    minimal members of [seen]; with nothing inserted the root is a leaf. *)
Definition tree_of (seen : list (list string)) (n : node) : Prop :=
  wf n /\ forall q, leaf n q <-> (seen = [] /\ q = []) \/ minimal seen q.

(** The sequence of path parts of a path. *)
Definition parts_of (p : string) : list string := split os_path_sep p.

(** [X] is an ancestor of [Y] by path parts: the sequence of path parts of
    [Y] strictly extends that of [X], which is to say that [Y] is [X], a
    separator and further text.  This is the relation the prefix tree
    decides.  It is narrower than nesting of directories: the parts of the
    root [/] are the two empty parts [''] and [''], those of [/a] are ['']
    and ['a'], so the root is an ancestor by path parts of no directory
    directly under it, and neither is a path that ends with the separator. *)
Definition ancestor (X Y : string) : Prop :=
  parts_of X `prefix_of` parts_of Y /\ parts_of X <> parts_of Y.

#[global] Instance ancestor_dec X Y : Decision (ancestor X Y).
Proof. unfold ancestor. apply _. Defined.

(** The directory [Y] lies under the directory [X]: it is another path, and
    it is [X], a separator and further text, or [X] ends with the separator
    itself (as the root [/] does) and [Y] is [X] and further text. *)
Definition lies_under (Y X : string) : bool :=
  negb (String.eqb Y X) &&
  (startswith Y (X +:+ "/") || (endswith X "/" && startswith Y X)).

End PathSetSpec.

(** ** ChangeEventFilter and ReloadExecutor: the notions their properties are
    stated with *)

Module ReloaderSpec.
Import PyStr Reloader.
Local Open Scope reload_scope.

(** The number of entries into [reload] among the calls [l]. *)
Definition is_call_reload (e : event) : bool :=
  match e with CallReload => true | _ => false end.

Definition reload_calls (l : list event) : nat :=
  length (List.filter is_call_reload l).

(** The path has the suffix of a source unit: [.py], or the [.pyc] and
    [.pyo] that are read as [.py]. *)
Definition source_unit_suffix (p : string) : bool :=
  endswith p ".py" || endswith p ".pyc" || endswith p ".pyo".

(** The directory [d] is the directory [w] itself or is nested under it:
    after [w] comes nothing, or a separator and further parts. *)
Definition is_or_under (d w : string) : bool :=
  String.eqb d w || startswith d (w +:+ "/") || (endswith w "/" && startswith d w).

(** The path [dispatch] tests after it has turned [.pyc] and [.pyo] into
    [.py]. *)
Definition normalized (file_path : string) : string :=
  if endswith_any file_path [".pyc"; ".pyo"] then drop_last file_path
  else file_path.

(** A host and a reloader for the concrete scenarios. *)
Definition posix_host : host :=
  mkHost "linux" "/usr/bin/python" ["app.py"] [] (fun p => p) true true.

Definition watching (mode : string) (extra_paths watch_paths : gset string)
    : world :=
  mkWorld (mkLiveReloader mode false extra_paths 1 watch_paths false) [] 0.

(** The world in which a strategy starts: [reload] has been entered. *)
Definition entered (w : world) : world :=
  mkWorld (self w) (log w ++ [CallReload]) (next_watch w).

End ReloaderSpec.

(** ** WatchSynchronizer: the notions its properties are stated with *)

Module WatcherSpec.
Import PyStr PathSet Reloader Watcher ReloaderSpec.
Local Open Scope reload_scope.

(** Iterating over a set visits each of its members once, in some order. *)
Definition valid_order (order : gset string -> list string) : Prop :=
  forall X, order X ≡ₚ elements X.

(** The iterations of the watcher loop that have run to their end among the
    calls [l]: each one ends with its [time.sleep]. *)
Definition is_sleep (e : event) : bool :=
  match e with Sleep _ => true | _ => false end.

Definition passes_made (l : list event) : nat :=
  length (List.filter is_sleep l).

(** A call of the observer's [schedule] or [unschedule]. *)
Definition is_observer_call (e : event) : bool :=
  match e with Schedule _ _ _ | Unschedule _ => true | _ => false end.

(** The watch objects [observer.schedule] has returned, the arguments
    [observer.unschedule] has been called with, and the calls of
    [observer.schedule] for the path [p], among the calls [l]. *)
Definition scheduled (l : list event) : list watch :=
  omap (fun e => match e with Schedule _ _ (Some x) => Some x | _ => None end) l.

Definition unscheduled (l : list event) : list (option watch) :=
  omap (fun e => match e with Unschedule x => Some x | _ => None end) l.

Definition schedule_attempts (p : string) (l : list event) : list event :=
  List.filter
    (fun e => match e with Schedule q _ _ => bool_decide (q = p) | _ => false end)
    l.

(** The instance once the new watch paths are stored. *)
Definition published (r : LiveReloader) (new_watch_path_s : gset string)
    : LiveReloader :=
  mkLiveReloader (_reload_mode r) (_force_exit r) (_extra_paths r)
                 (_interval r) new_watch_path_s (_watcher_to_stop r).

(** An example of an iteration: [sys.path] is [/srv/app] and [/srv/lib],
    one module is loaded from [/srv/app/pkg], sets are iterated in the
    order of [elements], and [/srv/lib] cannot be watched. *)
Definition example_tick : tick :=
  mkTick ["/srv/app"; "/srv/lib"] [Some "/srv/app/pkg/mod.py"; None] elements
         (fun p => negb (String.eqb p "/srv/lib")).

Definition other_tick : tick :=
  mkTick ["/srv/lib"] [] elements
         (fun p => negb (String.eqb p "/srv/lib")).

Definition app_only_tick : tick :=
  mkTick ["/srv/app"] [] elements
         (fun p => negb (String.eqb p "/srv/lib")).

(** Every call of [observer.unschedule] among the calls [l] has a watch
    object that an earlier call of [observer.schedule] returned, and no two
    calls have the same argument. *)
Definition unschedule_sound (l : list event) : Prop :=
  NoDup (unscheduled l) /\
  forall l1 x l2,
    l = l1 ++ Unschedule x :: l2 -> exists y, x = Some y /\ y ∈ scheduled l1.

(** The table and the observer agree: the watch objects in the table are
    distinct, were returned by [observer.schedule] and have not been passed
    to [observer.unschedule]; the observer has handed out only watch objects
    below its counter. *)
Definition table_inv (m : gmap string (option watch)) (w : world) : Prop :=
  unschedule_sound (log w) /\
  (forall y, y ∈ scheduled (log w) -> y < next_watch w) /\
  (forall p y, m !! p = Some (Some y) ->
               y ∈ scheduled (log w) /\ Some y ∉ unscheduled (log w)) /\
  (forall p1 p2 y, m !! p1 = Some (Some y) -> m !! p2 = Some (Some y) -> p1 = p2).

End WatcherSpec.

(** ** Further notions: launches, triggers, coverage *)

Module PropsSpec.
Import PyStr PathSet Reloader Watcher PathSetSpec ReloaderSpec WatcherSpec.

(** The instance with its stop flag set to [b]. *)
Definition with_stop_flag (r : LiveReloader) (b : bool) : LiveReloader :=
  mkLiveReloader (_reload_mode r) (_force_exit r) (_extra_paths r)
                 (_interval r) (_watch_paths r) b.

(** The call starts a process: [os.execvpe] or [subprocess.Popen]. *)
Definition is_launch (e : event) : bool :=
  match e with Execvpe _ _ _ | Popen _ _ => true | _ => false end.

(** A call that starts a process starts the interpreter with the arguments
    and the environment of the running program. *)
Definition same_invocation (h : host) (e : event) : Prop :=
  match e with
  | Execvpe file args env =>
      file = sys_executable h /\
      args = sys_executable h :: sys_argv h /\ env = os_environ h
  | Popen args env =>
      args = sys_executable h :: sys_argv h /\ env = os_environ h
  | _ => True
  end.

(** The test [dispatch] makes on a path: it is an extra path, or it has a
    source-unit suffix and its directory starts with one of the watch
    paths. *)
Definition triggers (r : LiveReloader) (p : string) : bool :=
  bool_decide (p ∈ _extra_paths r) ||
  (source_unit_suffix p &&
   startswith_any (dirname p) (elements (_watch_paths r))).

(** The directory [c] is covered by the set [D]: [D] contains it or one of
    its ancestors. *)
Definition covered (D : gset string) (c : string) : Prop :=
  exists z, z ∈ D /\ (z = c \/ ancestor z c).

(** The directories [_find_watch_paths] reduces: the absolute forms of the
    entries of [sys.path], the directories of the extra paths and the
    directories of the files of the loaded modules. *)
Definition candidates (h : host) (r : LiveReloader) (t : tick) : gset string :=
  list_to_set (map (abspath h) (sys_path t)) ∪
  list_to_set (map (fun e => dirname (abspath h e)) (elements (_extra_paths r))) ∪
  list_to_set (omap (fmap (fun f => dirname (abspath h f))) (sys_modules t)).

(** No watch is leaked: every watch object the observer returned has been
    unscheduled or is in the table. *)
Definition no_leak (m : gmap string (option watch)) (w : world) : Prop :=
  forall y, y ∈ scheduled (log w) ->
            Some y ∈ unscheduled (log w) \/ exists p, m !! p = Some (Some y).

End PropsSpec.

(** ** Facts about the string operations *)

Module PyStrFacts.
Import PyStr.

Lemma str_app_cons c s t : String c s +:+ t = String c (s +:+ t).
Proof. reflexivity. Qed.

Lemma str_app_nil_l t : "" +:+ t = t.
Proof. reflexivity. Qed.

Lemma str_app_nil_r s : s +:+ "" = s.
Proof. induction s as [|c s IH]; [done|]. by rewrite str_app_cons, IH. Qed.

Lemma str_app_assoc s t u : (s +:+ t) +:+ u = s +:+ (t +:+ u).
Proof. induction s as [|c s IH]; [done|]. by rewrite !str_app_cons, IH. Qed.

Lemma str_length_app s t :
  String.length (s +:+ t) = String.length s + String.length t.
Proof. induction s as [|c s IH]; [done|]. rewrite str_app_cons. simpl. by rewrite IH. Qed.

Lemma substring_0_all s : String.substring 0 (String.length s) s = s.
Proof. induction s as [|c s IH]; [done|]. simpl. by rewrite IH. Qed.

Lemma substring_app_take pre t :
  String.substring 0 (String.length pre) (pre +:+ t) = pre.
Proof.
  induction pre as [|c pre IH]; [by destruct t|].
  rewrite str_app_cons. simpl. by rewrite IH.
Qed.

Lemma substring_app_skip pre t :
  String.substring (String.length pre) (String.length t) (pre +:+ t) = t.
Proof.
  induction pre as [|c pre IH]; [apply substring_0_all|].
  rewrite str_app_cons. simpl. exact IH.
Qed.

Lemma substring_split s : forall k,
  k <= String.length s ->
  s = String.substring 0 k s +:+ String.substring k (String.length s - k) s.
Proof.
  induction s as [|c s IH]; intros [|k] Hk; simpl in *; try lia.
  - done.
  - by rewrite str_app_nil_l, substring_0_all.
  - rewrite str_app_cons. f_equal. apply IH. lia.
Qed.

(** [s.endswith(p)] holds exactly when [s] is some string followed by [p]. *)
Lemma endswith_spec s p : endswith s p = true <-> exists pre, s = pre +:+ p.
Proof.
  unfold endswith. rewrite andb_true_iff, Nat.leb_le, String.eqb_eq. split.
  - intros [Hle Hsub].
    exists (String.substring 0 (String.length s - String.length p) s).
    pose proof (substring_split s (String.length s - String.length p)) as H.
    replace (String.length s - (String.length s - String.length p))
      with (String.length p) in H by lia.
    rewrite Hsub in H. apply H. lia.
  - intros [pre ->]. rewrite str_length_app. split; [lia|].
    replace (String.length pre + String.length p - String.length p)
      with (String.length pre) by lia.
    apply substring_app_skip.
Qed.

Lemma str_prefix_app p t : String.prefix p (p +:+ t) = true.
Proof.
  induction p as [|c p IH]; [by destruct t|].
  rewrite str_app_cons. simpl. by destruct (ascii_dec c c).
Qed.

Lemma str_prefix_inv p : forall s, String.prefix p s = true -> exists t, s = p +:+ t.
Proof.
  induction p as [|c p IH]; intros s H; [by exists s|].
  destruct s as [|d s]; simpl in H; [done|].
  destruct (ascii_dec c d) as [->|]; [|done].
  destruct (IH s H) as [t ->]. by exists t.
Qed.

(** [s.startswith(p)] holds exactly when [s] is [p] followed by some string. *)
Lemma startswith_spec s p : startswith s p = true <-> exists t, s = p +:+ t.
Proof.
  unfold startswith. split; [apply str_prefix_inv|]. intros [t ->]. apply str_prefix_app.
Qed.

Lemma drop_last_snoc pre c : drop_last (pre +:+ String c "") = pre.
Proof.
  unfold drop_last. rewrite str_length_app. simpl.
  replace (String.length pre + 1 - 1) with (String.length pre) by lia.
  apply substring_app_take.
Qed.

Lemma has_sep_snoc q c :
  c <> os_path_sep -> has_sep (q +:+ String c "") = has_sep q.
Proof.
  intros Hc. induction q as [|d q IH].
  - simpl. apply Ascii.eqb_neq in Hc. by rewrite Hc.
  - rewrite str_app_cons. simpl. by rewrite IH.
Qed.

Lemma head_of_snoc q c :
  c <> os_path_sep -> head_of (q +:+ String c "") = head_of q.
Proof.
  intros Hc. induction q as [|d q IH].
  - simpl. apply Ascii.eqb_neq in Hc. by rewrite Hc.
  - rewrite str_app_cons. cbn [head_of]. rewrite <- str_app_cons, has_sep_snoc by done.
    by rewrite IH.
Qed.

(** Dropping a last character other than the separator keeps the directory. *)
Lemma dirname_snoc q c :
  c <> os_path_sep -> dirname (q +:+ String c "") = dirname q.
Proof. intros Hc. unfold dirname. by rewrite head_of_snoc. Qed.

(** The operations on some paths. *)
Example split_home : split os_path_sep "/home/aoik" = [""; "home"; "aoik"].
Proof. reflexivity. Qed.

Example split_root : split os_path_sep "/" = [""; ""].
Proof. reflexivity. Qed.

Example dirname_module : dirname "/a/b/x.py" = "/a/b".
Proof. reflexivity. Qed.

Example dirname_in_root : dirname "/x.py" = "/".
Proof. reflexivity. Qed.

Example dirname_doubled_sep : dirname "/a//x.py" = "/a".
Proof. reflexivity. Qed.

Example dirname_relative : dirname "x.py" = "".
Proof. reflexivity. Qed.

Example drop_last_pyc : drop_last "/a/x.pyc" = "/a/x.py".
Proof. reflexivity. Qed.

Example endswith_short : endswith "pyc" ".pyc" = false.
Proof. reflexivity. Qed.

End PyStrFacts.

(** ** PathSetComputer: facts about [_find_short_paths] *)

Module PathSetFacts.
Import PyStr PathSet PathSetSpec PyStrFacts.

Lemma split_nonempty sep s : split sep s <> [].
Proof. induction s as [|c s IH]; simpl; [done|]. destruct (Ascii.eqb c sep); [done|]. by destruct (split sep s). Qed.

Lemma join_cons_String c part parts :
  join (String c part :: parts) = String c (join (part :: parts)).
Proof. unfold join. simpl. by destruct parts. Qed.

Lemma join_split s : join (split os_path_sep s) = s.
Proof.
  induction s as [|c s IH]; [done|]. simpl.
  destruct (Ascii.eqb_spec c os_path_sep) as [->|Hc].
  - pose proof (split_nonempty os_path_sep s) as Hne.
    unfold join in *. simpl. destruct (split os_path_sep s) eqn:E; [done|].
    simpl. by rewrite <- IH.
  - pose proof (split_nonempty os_path_sep s) as Hne.
    destruct (split os_path_sep s) eqn:E; [done|].
    rewrite join_cons_String. by rewrite IH.
Qed.

Lemma split_inj s1 s2 : split os_path_sep s1 = split os_path_sep s2 -> s1 = s2.
Proof. intros H. by rewrite <- (join_split s1), <- (join_split s2), H. Qed.

(** Induction on a prefix tree, with the property known for all children. *)
Lemma node_nested_ind (P : node -> Prop) :
  (forall its, Forall (fun kc => P (snd kc)) its -> P (Node its)) ->
  forall n, P n.
Proof.
  intros HNode. fix IH 1. intros [its]. apply HNode.
  induction its as [|kc its IHits]; constructor; [apply IH|exact IHits].
Qed.

Lemma leaf_nil_inv q : leaf (Node []) q -> q = [].
Proof. inversion 1 as [|k c its q' Hin]; [done|]. by apply elem_of_nil in Hin. Qed.

Lemma leaf_cons_inv kc its q :
  leaf (Node (kc :: its)) q ->
  exists k c q', q = k :: q' /\ (k, c) ∈ kc :: its /\ leaf c q'.
Proof. inversion 1; subst; eauto 6. Qed.

Lemma wf_inv its :
  wf (Node its) -> NoDup (map fst its) /\ Forall (fun kc => wf (snd kc)) its.
Proof. by inversion 1. Qed.

Lemma wf_child k c its : wf (Node its) -> (k, c) ∈ its -> wf c.
Proof.
  intros [_ Hall]%wf_inv Hin. rewrite Forall_forall in Hall.
  exact (Hall (k, c) Hin).
Qed.

Lemma child_Some_elem part c its : child part its = Some c -> (part, c) ∈ its.
Proof.
  induction its as [|[k c'] its IH]; simpl; [done|].
  destruct (String.eqb_spec k part) as [->|Hne].
  - intros [= ->]. left.
  - intros H. right. auto.
Qed.

Lemma child_None_elem part c its : child part its = None -> (part, c) ∉ its.
Proof.
  induction its as [|[k c'] its IH]; simpl; [intros _; apply not_elem_of_nil|].
  destruct (String.eqb_spec k part) as [->|Hne]; [done|].
  intros H [Heq|Hin]%elem_of_cons; [congruence|]. by apply IH.
Qed.

Lemma elem_child part c its :
  NoDup (map fst its) -> (part, c) ∈ its -> child part its = Some c.
Proof.
  induction its as [|[k c'] its IH]; simpl; [by intros _ ?%elem_of_nil|].
  intros [Hk Hnd]%NoDup_cons [Heq|Hin]%elem_of_cons.
  - injection Heq as -> ->. by rewrite String.eqb_refl.
  - destruct (String.eqb_spec k part) as [->|Hne]; [|by apply IH].
    exfalso. apply Hk. apply list_elem_of_fmap. by exists (part, c).
Qed.

(** What [setdefault] followed by the update [f] leaves in the parent. *)
Lemma setdefault_keys part f its k :
  k ∈ map fst (setdefault part f its) <-> k = part \/ k ∈ map fst its.
Proof.
  induction its as [|[k' c'] its IH]; simpl.
  - rewrite list_elem_of_singleton. split; [auto|]. intros [?|?%elem_of_nil]; done.
  - destruct (String.eqb_spec k' part) as [->|Hne]; simpl.
    + rewrite elem_of_cons. naive_solver.
    + rewrite !elem_of_cons, IH. naive_solver.
Qed.

Lemma setdefault_NoDup part f its :
  NoDup (map fst its) -> NoDup (map fst (setdefault part f its)).
Proof.
  induction its as [|[k' c'] its IH]; simpl.
  - intros _. apply NoDup_singleton.
  - intros [Hk Hnd]%NoDup_cons.
    destruct (String.eqb_spec k' part) as [->|Hne]; simpl.
    + by apply NoDup_cons.
    + apply NoDup_cons. split; [|by apply IH].
      rewrite setdefault_keys. intros [?|?]; [congruence|done].
Qed.

Lemma setdefault_elem part f its k c :
  NoDup (map fst its) ->
  (k, c) ∈ setdefault part f its <->
    (k <> part /\ (k, c) ∈ its) \/
    (k = part /\ c = f (default (Node []) (child part its))).
Proof.
  induction its as [|[k' c'] its IH]; simpl.
  - intros _. rewrite list_elem_of_singleton. split.
    + intros [= -> ->]. by right.
    + intros [[_ ?%elem_of_nil]|[-> ->]]; done.
  - intros [Hk Hnd]%NoDup_cons.
    destruct (String.eqb_spec k' part) as [->|Hne]; simpl.
    + rewrite !elem_of_cons. split.
      * intros [[= -> ->]|Hin]; [by right|]. left. split; [|by right].
        intros ->. apply Hk. apply list_elem_of_fmap. by exists (part, c).
      * intros [[Hne [[= ? ?]|Hin]]|[-> ->]]; [done|by right|by left].
    + rewrite !elem_of_cons, IH by done. split.
      * intros [[= -> ->]|[[? ?]|[-> ->]]]; [left|left|right]; auto.
      * intros [[? [[= -> ->]|?]]|[-> ->]]; [by left|right; by left|right; by right].
Qed.

Lemma wf_empty : wf (Node []).
Proof. constructor; [apply NoDup_nil_2 | apply List.Forall_nil]. Qed.

Lemma setdefault_not_nil part f its : setdefault part f its <> [].
Proof. destruct its as [|[k c] its]; simpl; [done|]. by destruct (String.eqb k part). Qed.

Lemma leaf_Node_inv its q :
  leaf (Node its) q ->
  (its = [] /\ q = []) \/
  exists k c q', q = k :: q' /\ (k, c) ∈ its /\ leaf c q'.
Proof. inversion 1; subst; [by left|right; eauto 6]. Qed.

Lemma wf_default_child part its :
  wf (Node its) -> wf (default (Node []) (child part its)).
Proof.
  intros Hwf. destruct (child part its) as [c|] eqn:E; simpl.
  - eapply wf_child; [done|]. by apply child_Some_elem.
  - apply wf_empty.
Qed.

(** Inserting a path keeps the tree a tree of dicts. *)
Lemma insert_parts_wf parts : forall n, wf n -> wf (insert_parts parts n).
Proof.
  induction parts as [|part parts IH]; intros [its] Hwf; simpl.
  - apply wf_empty.
  - pose proof Hwf as [Hnd Hall]%wf_inv. constructor.
    + by apply setdefault_NoDup.
    + apply Forall_forall. intros [k c] Hin.
      apply (setdefault_elem _ _ _ _ _ Hnd) in Hin as [[_ Hin]|[-> ->]]; simpl.
      * by eapply wf_child.
      * apply IH. by apply wf_default_child.
Qed.

(** The leaves after inserting [parts]: [parts] itself, and the old leaves
    that are neither below [parts] (cleared) nor above it (extended). *)
Lemma insert_parts_leaf parts : forall n q,
  wf n ->
  leaf (insert_parts parts n) q <->
    q = parts \/ (leaf n q /\ ~ parts `prefix_of` q /\ ~ q `prefix_of` parts).
Proof.
  induction parts as [|part parts IH]; intros [its] q Hwf; simpl.
  - split.
    + intros ->%leaf_nil_inv. by left.
    + intros [->|(_ & Hp & _)]; [constructor|]. destruct Hp. apply prefix_nil.
  - pose proof Hwf as [Hnd Hall]%wf_inv.
    pose proof (wf_default_child part its Hwf) as Hwfc.
    split.
    + intros [[Hnil _]|(k & c & q' & -> & Hin & Hleaf)]%leaf_Node_inv;
        [by apply setdefault_not_nil in Hnil|].
      apply (setdefault_elem _ _ _ _ _ Hnd) in Hin as [[Hne Hin]|[-> ->]].
      * right. split; [by econstructor|].
        split; intros [? [= ? ?]]; congruence.
      * apply IH in Hleaf as [->|(Hleaf & Hp1 & Hp2)]; [by left| |done].
        right. destruct (child part its) as [c|] eqn:E; simpl in *.
        -- split; [econstructor; [by apply child_Some_elem|done]|].
           split; intros [m [= Hm]]; [apply Hp1|apply Hp2]; by exists m.
        -- apply leaf_nil_inv in Hleaf as ->. destruct Hp2. apply prefix_nil.
    + intros [->|(Hleaf & Hp1 & Hp2)].
      * econstructor.
        -- apply (setdefault_elem _ _ _ _ _ Hnd). right. split; reflexivity.
        -- apply IH; [done|]. by left.
      * apply leaf_Node_inv in Hleaf as [[-> ->]|(k & c & q' & -> & Hin & Hleaf)];
          [destruct Hp2; apply prefix_nil|].
        destruct (decide (k = part)) as [->|Hne].
        -- econstructor.
           ++ apply (setdefault_elem _ _ _ _ _ Hnd). right. split; reflexivity.
           ++ rewrite (elem_child _ _ _ Hnd Hin). simpl.
              apply IH; [by eapply wf_child|]. right. split; [done|].
              split; intros [m Hm]; [apply Hp1|apply Hp2]; exists m; by rewrite Hm.
        -- econstructor; [|done].
           apply (setdefault_elem _ _ _ _ _ Hnd). by left.
Qed.

(** [_collect_leaf_paths] adds the joined path of every leaf below [n]. *)
Lemma collect_children (pp : list string) (l : list (string * node)) :
  Forall (fun kc => forall pp' acc x,
            x ∈ _collect_leaf_paths (snd kc) pp' acc <->
              x ∈ acc \/ exists q, leaf (snd kc) q /\ x = join (pp' ++ q)) l ->
  forall acc x,
    x ∈ fold_left
          (fun acc kc => _collect_leaf_paths (snd kc) (pp ++ [fst kc]) acc)
          l acc <->
      x ∈ acc \/
      exists k c q, (k, c) ∈ l /\ leaf c q /\ x = join (pp ++ k :: q).
Proof.
  induction 1 as [|[k c] l Hkc _ IH]; intros acc x; simpl.
  - split; [by left|]. intros [?|(? & ? & ? & ?%elem_of_nil & _)]; done.
  - rewrite IH, Hkc. simpl. split.
    + intros [[?|(q & Hq & ->)]|(k' & c' & q & Hin & Hq & ->)]; [by left|right..].
      * exists k, c, q. rewrite <- app_assoc. split; [left|done].
      * exists k', c', q. split; [by right|done].
    + intros [?|(k' & c' & q & [[= -> ->]|Hin]%elem_of_cons & Hq & ->)].
      * left. by left.
      * left. right. exists q. by rewrite <- app_assoc.
      * right. by exists k', c', q.
Qed.

Lemma collect_leaf_paths_spec n : forall pp acc x,
  x ∈ _collect_leaf_paths n pp acc <->
    x ∈ acc \/ exists q, leaf n q /\ x = join (pp ++ q).
Proof.
  induction n as [its IH] using node_nested_ind. intros pp acc x.
  destruct its as [|kc its].
  - simpl. rewrite elem_of_union, elem_of_singleton. split.
    + intros [->|?]; [right|by left]. exists []. rewrite app_nil_r.
      split; [constructor|done].
    + intros [?|(q & ->%leaf_nil_inv & ->)]; [by right|left].
      by rewrite app_nil_r.
  - change (_collect_leaf_paths (Node (kc :: its)) pp acc)
      with (fold_left
              (fun acc kc => _collect_leaf_paths (snd kc) (pp ++ [fst kc]) acc)
              (kc :: its) acc).
    rewrite (collect_children pp (kc :: its) IH). split.
    + intros [?|(k & c & q & Hin & Hq & ->)]; [by left|right].
      exists (k :: q). split; [by econstructor|done].
    + intros [?|(q & Hq & ->)]; [by left|right].
      apply leaf_cons_inv in Hq as (k & c & q' & -> & Hin & Hq). eauto 6.
Qed.

(** The sort is a permutation, the longest first. *)
Lemma insert_by_len_Permutation x l : insert_by_len x l ≡ₚ x :: l.
Proof.
  induction l as [|y l IH]; simpl; [done|].
  destruct (length x <? length y)%nat; [|done].
  rewrite IH. apply Permutation_swap.
Qed.

Lemma sorted_longest_first_Permutation l : sorted_longest_first l ≡ₚ l.
Proof.
  induction l as [|x l IH]; simpl; [done|].
  rewrite insert_by_len_Permutation. by rewrite IH.
Qed.

Lemma insert_by_len_sorted x l :
  longest_first l -> longest_first (insert_by_len x l).
Proof.
  unfold longest_first. induction 1 as [|y l Hl IH Hy]; simpl.
  - repeat constructor.
  - destruct (Nat.ltb_spec (length x) (length y)).
    + constructor; [done|]. rewrite insert_by_len_Permutation.
      constructor; [lia|done].
    + constructor; [by constructor|]. constructor; [done|].
      eapply Forall_impl; [exact Hy|]. simpl. lia.
Qed.

Lemma sorted_longest_first_sorted l : longest_first (sorted_longest_first l).
Proof.
  induction l as [|x l IH]; simpl; [constructor|]. by apply insert_by_len_sorted.
Qed.

Lemma tree_of_start : tree_of [] (Node []).
Proof.
  split; [apply wf_empty|]. intros q. split.
  - intros ->%leaf_nil_inv. by left.
  - intros [[_ ->]|[?%elem_of_nil _]]; [constructor|done].
Qed.

Lemma tree_of_insert x seen n :
  tree_of seen n ->
  (forall y, y ∈ seen -> length x <= length y) ->
  tree_of (x :: seen) (insert_parts x n).
Proof.
  intros [Hwf Hleaf] Hlen. split; [by apply insert_parts_wf|].
  intros q. rewrite insert_parts_leaf, Hleaf by done. split.
  - intros [->|([[-> ->]|[Hq Hmin]] & Hp1 & Hp2)]; right.
    + split; [left|]. intros p [->|Hp]%elem_of_cons Hpre; [done|].
      apply prefix_length_eq; [done|]. by apply Hlen.
    + destruct Hp2. apply prefix_nil.
    + split; [by right|]. intros p [->|Hp]%elem_of_cons Hpre; [done|].
      by apply Hmin.
  - intros [[? _]|[Hq Hmin]]; [done|].
    destruct (decide (q = x)) as [->|Hne]; [by left|right].
    apply elem_of_cons in Hq as [?|Hq]; [done|]. split; [|split].
    + right. split; [done|]. intros p Hp. apply Hmin. by right.
    + intros Hpre. apply Hne. symmetry. apply Hmin; [left|done].
    + intros Hpre. apply Hne. apply prefix_length_eq; [done|]. by apply Hlen.
Qed.

Lemma tree_of_fold todo : forall seen n,
  tree_of seen n ->
  longest_first todo ->
  (forall x y, x ∈ todo -> y ∈ seen -> length x <= length y) ->
  tree_of (reverse todo ++ seen)
          (fold_left (fun root parts => insert_parts parts root) todo n).
Proof.
  induction todo as [|x todo IH]; intros seen n Htree Hsorted Hlen; simpl.
  - done.
  - apply StronglySorted_inv in Hsorted as [Hsorted Hx].
    rewrite Forall_forall in Hx. rewrite reverse_cons, <- app_assoc. simpl.
    apply IH.
    + apply tree_of_insert; [done|]. intros y Hy. apply Hlen; [left|done].
    + done.
    + intros x' y Hx' [->|Hy]%elem_of_cons; [by apply Hx|].
      apply Hlen; [by right|done].
Qed.

Lemma find_short_paths_nil : _find_short_paths [] = {[ "" ]}.
Proof. unfold _find_short_paths. simpl. apply set_eq. intros x. set_solver. Qed.

(** The reduction keeps exactly the given paths that have no ancestor among
    the given paths. *)
Lemma find_short_paths_spec paths x :
  paths <> [] ->
  x ∈ _find_short_paths paths <->
    x ∈ paths /\ forall z, z ∈ paths -> ~ ancestor z x.
Proof.
  intros Hne. unfold _find_short_paths.
  set (path_parts_s := map (split os_path_sep) paths).
  set (todo := sorted_longest_first path_parts_s).
  pose proof (tree_of_fold todo [] (Node []) tree_of_start
                (sorted_longest_first_sorted _)) as [_ Hleaf].
  { intros ? ? _ ?%elem_of_nil. done. }
  rewrite app_nil_r in Hleaf.
  assert (Hmem : forall q, q ∈ reverse todo <-> exists p, p ∈ paths /\ q = parts_of p).
  { intros q. rewrite elem_of_reverse. unfold todo.
    rewrite sorted_longest_first_Permutation. unfold path_parts_s.
    rewrite list_elem_of_fmap. naive_solver. }
  rewrite collect_leaf_paths_spec. simpl. split.
  - intros [?%elem_of_empty|(q & Hq & ->)]; [done|].
    apply Hleaf in Hq as [[Hnil _]|[Hq Hmin]].
    { destruct paths as [|p paths]; [done|].
      assert (parts_of p ∈ reverse todo) as Hin by (apply Hmem; exists p; split; [left|done]).
      rewrite Hnil in Hin. by apply elem_of_nil in Hin. }
    apply Hmem in Hq as (p & Hp & ->). unfold parts_of. rewrite join_split.
    split; [done|]. intros z Hz [Hpre Hneq]. apply Hneq. apply Hmin; [|done].
    apply Hmem. by exists z.
  - intros [Hx Hanc]. right. exists (parts_of x). unfold parts_of at 2.
    rewrite join_split. split; [|done]. apply Hleaf. right. split.
    + apply Hmem. by exists x.
    + intros p (z & Hz & ->)%Hmem Hpre.
      destruct (decide (parts_of z = parts_of x)) as [|Hneq]; [done|].
      destruct (Hanc z Hz). by split.
Qed.

(** The reduction depends on the set of the given paths only, not on the
    order in which they are listed. *)
Lemma find_short_paths_ext l1 l2 :
  (forall x, x ∈ l1 <-> x ∈ l2) -> _find_short_paths l1 = _find_short_paths l2.
Proof.
  intros Hl. destruct l1 as [|p1 l1], l2 as [|p2 l2].
  - done.
  - assert (p2 ∈ []) as ?%elem_of_nil by (apply Hl; left). done.
  - assert (p1 ∈ []) as ?%elem_of_nil by (apply Hl; left). done.
  - apply set_eq. intros x. rewrite !find_short_paths_spec by done.
    rewrite Hl. by setoid_rewrite Hl.
Qed.

(** Without ancestor pairs nothing is dropped, as soon as there is a path. *)
Lemma find_short_paths_no_ancestors paths :
  paths <> [] ->
  (forall X Y, X ∈ paths -> Y ∈ paths -> ~ ancestor X Y) ->
  _find_short_paths paths = list_to_set paths.
Proof.
  intros Hne Hno. apply set_eq. intros x.
  rewrite find_short_paths_spec, elem_of_list_to_set by done. naive_solver.
Qed.

Lemma leaf_exists n : exists q, leaf n q.
Proof.
  induction n as [its IH] using node_nested_ind.
  destruct its as [|[k c] its]; [exists []; constructor|].
  apply Forall_cons in IH as [[q Hq] _]. exists (k :: q).
  econstructor; [left|done].
Qed.

(** The reduction never returns the empty set. *)
Lemma find_short_paths_inhabited paths : exists x, x ∈ _find_short_paths paths.
Proof.
  unfold _find_short_paths.
  destruct (leaf_exists
              (fold_left (fun root parts => insert_parts parts root)
                 (sorted_longest_first (map (split os_path_sep) paths))
                 (Node []))) as [q Hq].
  exists (join q). apply collect_leaf_paths_spec. right. by exists q.
Qed.

Lemma ancestor_irrefl X : ~ ancestor X X.
Proof. by intros [_ ?]. Qed.

Lemma find_short_paths_antichain paths x z :
  x ∈ _find_short_paths paths -> z ∈ _find_short_paths paths -> ~ ancestor z x.
Proof.
  destruct paths as [|p paths].
  - rewrite find_short_paths_nil, !elem_of_singleton. intros -> ->.
    apply ancestor_irrefl.
  - rewrite !find_short_paths_spec by done. intros [_ Hx] [Hz _]. by apply Hx.
Qed.

(** Splitting at a separator splits the parts. *)
Lemma split_app_sep a b :
  split os_path_sep (a +:+ String os_path_sep b)
  = split os_path_sep a ++ split os_path_sep b.
Proof.
  induction a as [|c a IH].
  - rewrite str_app_nil_l. simpl. by rewrite ?Ascii.eqb_refl.
  - rewrite str_app_cons. simpl. rewrite IH.
    destruct (Ascii.eqb c os_path_sep); [done|].
    pose proof (split_nonempty os_path_sep a) as Hne.
    by destruct (split os_path_sep a).
Qed.

Lemma join_app a b :
  a <> [] -> b <> [] -> join (a ++ b) = join a +:+ "/" +:+ join b.
Proof.
  intros Ha Hb. induction a as [|x a IH]; [done|].
  destruct a as [|x' a].
  - simpl. destruct b as [|y b]; [done|]. reflexivity.
  - change (join ((x :: x' :: a) ++ b))
      with (x +:+ "/" +:+ join ((x' :: a) ++ b)).
    rewrite IH by done.
    change (join (x :: x' :: a)) with (x +:+ "/" +:+ join (x' :: a)).
    by rewrite !str_app_assoc.
Qed.

(** [X] is an ancestor of [Y] by path parts exactly when [Y] is [X], a
    separator and further text. *)
Lemma ancestor_string X Y :
  ancestor X Y <-> exists rest, Y = X +:+ "/" +:+ rest.
Proof.
  split.
  - intros [[k Hk] Hne].
    assert (k <> []) as Hnil.
    { intros ->. rewrite app_nil_r in Hk. by destruct Hne. }
    exists (join k).
    assert (Y = join (parts_of X ++ k)) as ->.
    { rewrite <- Hk. unfold parts_of. by rewrite join_split. }
    rewrite join_app; [|apply split_nonempty|done].
    unfold parts_of. by rewrite join_split.
  - intros [rest ->].
    change (X +:+ "/" +:+ rest) with (X +:+ String os_path_sep rest).
    unfold ancestor, parts_of. rewrite split_app_sep. split.
    + by exists (split os_path_sep rest).
    + intros H. apply (f_equal length) in H. rewrite List.length_app in H.
      pose proof (split_nonempty os_path_sep rest) as Hne.
      destruct (split os_path_sep rest); [done|]. simpl in H. lia.
Qed.

(** Under a directory that does not end with the separator lie exactly the
    paths it is an ancestor of by path parts. *)
Lemma lies_under_ancestor Y X :
  lies_under Y X = true -> endswith X "/" = false -> ancestor X Y.
Proof.
  unfold lies_under. intros H Hend. rewrite Hend in H. simpl in H.
  rewrite orb_false_r in H. apply andb_true_iff in H as [_ H].
  apply startswith_spec in H as [t ->]. apply ancestor_string.
  exists t. by rewrite str_app_assoc.
Qed.

Lemma ancestor_lies_under X Y : ancestor X Y -> lies_under Y X = true.
Proof.
  intros H. pose proof H as [rest ->]%ancestor_string.
  unfold lies_under. apply andb_true_iff. split.
  - apply negb_true_iff, String.eqb_neq. intros Heq.
    destruct H as [_ Hne]. apply Hne. by rewrite Heq.
  - apply orb_true_iff. left. apply startswith_spec. exists rest.
    by rewrite str_app_assoc.
Qed.

(** Reducing a reduced set changes nothing, in whatever order the reduced
    set is listed. *)
Lemma find_short_paths_idempotent paths l :
  (forall x, x ∈ l <-> x ∈ _find_short_paths paths) ->
  _find_short_paths l = _find_short_paths paths.
Proof.
  intros Hl. assert (l <> []) as Hne.
  { destruct (find_short_paths_inhabited paths) as [x Hx].
    intros ->. apply Hl in Hx. by apply elem_of_nil in Hx. }
  apply set_eq. intros x. rewrite find_short_paths_spec by done.
  rewrite Hl. split; [by intros [? _]|]. intros Hx. split; [done|].
  intros z Hz%Hl. by apply (find_short_paths_antichain paths).
Qed.

(** The reduction on some sets, listed in several orders. *)
Example reduce_home : _find_short_paths ["/home/aoik"; "/home"] = {[ "/home" ]}.
Proof. by vm_compute. Qed.

Example reduce_chain :
  _find_short_paths ["/a/b"; "/a/b/c"; "/a"] = {[ "/a" ]}.
Proof. by vm_compute. Qed.

Example reduce_siblings :
  _find_short_paths ["/a/b"; "/c"; "/a/d"] = {[ "/a/b"; "/a/d"; "/c" ]}.
Proof. by vm_compute. Qed.

Example reduce_name_prefix :
  _find_short_paths ["/ab"; "/a"] = {[ "/a"; "/ab" ]}.
Proof. by vm_compute. Qed.

(** The parts of the root are [''] and [''], those of [/a] are [''] and
    ['a']: the reduction keeps a directory together with the root, and with
    a path that ends with the separator, although it lies under them. *)
Example reduce_root :
  lies_under "/a" "/" = true /\
  _find_short_paths ["/"; "/a"] = {[ "/"; "/a" ]}.
Proof. by vm_compute. Qed.

Example reduce_trailing_sep :
  lies_under "/a/b" "/a/" = true /\
  _find_short_paths ["/a/"; "/a/b"] = {[ "/a/"; "/a/b" ]}.
Proof. by vm_compute. Qed.

(** C1, as amended.  Whenever a given path [Y] lies under a given path [X]
    that does not end with the separator ([Y] is [X], a separator and
    further segments; [X] is then not the root), the shortest-prefix
    reduction does not contain [Y], and it contains [X] when [X] lies in
    turn under no given path; the candidates [/a], [/a/b], [/c], listed in
    any order, reduce to exactly [/a] and [/c]. *)
Theorem find_short_paths_keeps_shortest_ancestor :
  (forall paths X Y,
      X ∈ paths -> Y ∈ paths ->
      lies_under Y X = true -> endswith X "/" = false ->
      (Y ∉ _find_short_paths paths) /\
      ((forall Z, Z ∈ paths -> lies_under X Z = false) ->
       X ∈ _find_short_paths paths)) /\
  (forall paths,
      Permutation paths ["/a"; "/a/b"; "/c"] ->
      _find_short_paths paths = {[ "/a"; "/c" ]}).
Proof.
  split.
  - intros paths X Y HX HY Hunder Hend.
    pose proof (lies_under_ancestor Y X Hunder Hend) as Hanc.
    assert (paths <> []) as Hne by (intros ->; by apply elem_of_nil in HX).
    rewrite !find_short_paths_spec by done. split.
    + intros [_ Hno]. by apply (Hno X).
    + intros Hno. split; [done|].
      intros Z HZ HancZ%ancestor_lies_under. by rewrite (Hno Z HZ) in HancZ.
  - intros paths Hperm.
    assert (paths <> []) as Hne.
    { intros ->. by apply Permutation_nil_l in Hperm. }
    apply set_eq. intros x. rewrite find_short_paths_spec by done.
    setoid_rewrite Hperm.
    rewrite elem_of_union, !elem_of_singleton, !elem_of_cons, elem_of_nil.
    split.
    + intros [[->|[->|[->|[]]]] Hno]; [by left| |by right].
      destruct (Hno "/a"); [left|]. apply (bool_decide_unpack _). by vm_compute.
    + assert (forall z y, z ∈ ["/a"; "/a/b"; "/c"] -> y = "/a" \/ y = "/c" ->
                          ~ ancestor z y) as Hdec.
      { intros z y Hz Hy.
        repeat (apply elem_of_cons in Hz as [->|Hz]); [..|by apply elem_of_nil in Hz];
          destruct Hy as [->| ->]; apply (bool_decide_unpack _); by vm_compute. }
      intros Hx. split; [naive_solver|].
      intros z Hz. by apply Hdec.
Qed.

(** The amended C1 at the candidates [/a], [/a/b], [/a/b/c], where [/a/b/c]
    lies under [/a] and [/a] under none of the three, and at the candidates
    [/a], [/a/b], [/c]. *)
Lemma find_short_paths_keeps_shortest_ancestor_witness :
  (("/a/b/c" ∉ _find_short_paths ["/a"; "/a/b"; "/a/b/c"]) /\
   "/a" ∈ _find_short_paths ["/a"; "/a/b"; "/a/b/c"]) /\
  _find_short_paths ["/a"; "/a/b"; "/c"] = {[ "/a"; "/c" ]}.
Proof.
  split.
  - destruct (proj1 find_short_paths_keeps_shortest_ancestor
                 ["/a"; "/a/b"; "/a/b/c"] "/a" "/a/b/c") as [Hout Hin].
    + left.
    + right. right. left.
    + reflexivity.
    + reflexivity.
    + split; [exact Hout|]. apply Hin. intros Z HZ.
      repeat (apply elem_of_cons in HZ as [->|HZ]); [reflexivity..|].
      by apply elem_of_nil in HZ.
  - apply (proj2 find_short_paths_keeps_shortest_ancestor
                 ["/a"; "/a/b"; "/c"]).
    reflexivity.
Defined.

(** C1 as stated fails: [/a/b] is an ancestor of [/a/b/c], both are given,
    and the reduction of [/a], [/a/b], [/a/b/c] does not contain [/a/b].
    It fails at the root as well: [/a] lies under [/], both are given, and
    the reduction of [/], [/a] contains [/a]. *)
Lemma find_short_paths_ancestor_dropped :
  ("/a/b" ∈ ["/a"; "/a/b"; "/a/b/c"] /\
   "/a/b/c" ∈ ["/a"; "/a/b"; "/a/b/c"] /\
   ancestor "/a/b" "/a/b/c" /\
   ~ ("/a/b" ∈ _find_short_paths ["/a"; "/a/b"; "/a/b/c"] /\
      "/a/b/c" ∉ _find_short_paths ["/a"; "/a/b"; "/a/b/c"])) /\
  ("/" ∈ ["/"; "/a"] /\ "/a" ∈ ["/"; "/a"] /\ lies_under "/a" "/" = true /\
   ~ ("/" ∈ _find_short_paths ["/"; "/a"] /\
      "/a" ∉ _find_short_paths ["/"; "/a"])).
Proof.
  split.
  - split; [right; left|]. split; [right; right; left|].
    split; [apply (bool_decide_unpack _); by vm_compute|].
    intros [H _]. vm_compute in H. discriminate H.
  - split; [left|]. split; [right; left|]. split; [reflexivity|].
    intros [_ H]. apply H. vm_compute. reflexivity.
Qed.

(** C7, at the empty set: no pair of given paths is in ancestor relation,
    and the reduction differs from the given set. *)
Theorem find_short_paths_empty_not_identity :
  (forall X Y : string, X ∈ [] -> Y ∈ [] -> ~ ancestor X Y) /\
  _find_short_paths [] <> list_to_set [].
Proof.
  split; [by intros X Y ?%elem_of_nil|].
  rewrite find_short_paths_nil. simpl. intros H.
  apply (not_elem_of_empty (C := gset string) ""). rewrite <- H.
  by apply elem_of_singleton.
Qed.

(** C8, at the empty set: the reduction of no path at all is the set that
    holds the empty path, not the empty set. *)
Theorem find_short_paths_empty_gives_empty_path :
  _find_short_paths [] = {[ "" ]} /\ _find_short_paths [] <> ∅.
Proof.
  split; [apply find_short_paths_nil|].
  rewrite find_short_paths_nil. intros H.
  apply (not_elem_of_empty (C := gset string) ""). rewrite <- H.
  by apply elem_of_singleton.
Qed.

End PathSetFacts.

(** ** ChangeEventFilter and ReloadExecutor: facts about [dispatch] and [reload] *)

Module ReloaderFacts.
Import PyStr PyStrFacts Reloader ReloaderSpec.
Local Open Scope reload_scope.

Lemma reload_calls_app l1 l2 :
  reload_calls (l1 ++ l2) = reload_calls l1 + reload_calls l2.
Proof. unfold reload_calls. by rewrite List.filter_app, length_app. Qed.

Lemma compiled_suffix_inv p :
  endswith_any p [".pyc"; ".pyo"] = true ->
  exists pre c, p = (pre +:+ ".py") +:+ String c "" /\ c <> os_path_sep.
Proof.
  unfold endswith_any. simpl. rewrite orb_false_r, orb_true_iff.
  intros [[pre ->]%endswith_spec|[pre ->]%endswith_spec].
  - exists pre, "c"%char. by rewrite str_app_assoc.
  - exists pre, "o"%char. by rewrite str_app_assoc.
Qed.

Lemma normalized_suffix p : endswith (normalized p) ".py" = source_unit_suffix p.
Proof.
  unfold normalized, source_unit_suffix.
  destruct (endswith_any p [".pyc"; ".pyo"]) eqn:E.
  - pose proof E as (pre & c & -> & _)%compiled_suffix_inv.
    rewrite drop_last_snoc.
    assert (endswith (pre +:+ ".py") ".py" = true) as ->
      by (apply endswith_spec; by exists pre).
    unfold endswith_any in E. simpl in E. rewrite orb_false_r in E.
    rewrite <- orb_assoc, E. by rewrite orb_true_r.
  - unfold endswith_any in E. simpl in E. rewrite orb_false_r in E.
    apply orb_false_iff in E as [-> ->]. by rewrite !orb_false_r.
Qed.

Lemma normalized_dirname p : dirname (normalized p) = dirname p.
Proof.
  unfold normalized. destruct (endswith_any p [".pyc"; ".pyo"]) eqn:E; [|done].
  apply compiled_suffix_inv in E as (pre & c & -> & Hc).
  by rewrite drop_last_snoc, dirname_snoc.
Qed.

Lemma is_or_under_startswith d w : is_or_under d w = true -> startswith d w = true.
Proof.
  unfold is_or_under. rewrite !orb_true_iff, andb_true_iff, String.eqb_eq.
  intros [[->|[t ->]%startswith_spec]|[_ ?]]; [| |done]; apply startswith_spec.
  - exists "". by rewrite str_app_nil_r.
  - exists ("/" +:+ t). by rewrite str_app_assoc.
Qed.

(** [reload] never returns to its caller, and is entered once. *)
Lemma reload_stops h w :
  exists s w', reload h w = (Stop s, w') /\
               reload_calls (log w') = S (reload_calls (log w)).
Proof.
  unfold reload, reload_using_exec, reload_using_spawn_exit,
    reload_using_spawn_wait, subprocess_call, subprocess_Popen,
    bind, tell, get_self, put_self, raise, halt, ret. simpl.
  repeat match goal with
         | |- context [if ?c then _ else _] => destruct c; simpl
         end;
    eexists _, _; (split; [reflexivity|]); simpl;
    rewrite ?reload_calls_app; unfold reload_calls; simpl; lia.
Qed.

(** What [dispatch] does, by the two tests it makes. *)
Lemma dispatch_extra h ev w :
  src_path ev ∈ _extra_paths (self w) ->
  exists s w', dispatch h ev w = (Stop s, w') /\
               reload_calls (log w') = S (reload_calls (log w)).
Proof.
  intros Hin. destruct (reload_stops h w) as (s & w' & Hr & Hc).
  exists s, w'. split; [|done]. unfold dispatch, bind, get_self.
  rewrite bool_decide_eq_true_2 by done. by rewrite Hr.
Qed.

Lemma dispatch_not_extra h ev w :
  src_path ev ∉ _extra_paths (self w) ->
  dispatch h ev w =
    if source_unit_suffix (src_path ev)
       && startswith_any (dirname (src_path ev))
                         (elements (_watch_paths (self w)))
    then reload h w else (Done tt, w).
Proof.
  intros Hin. unfold dispatch, bind, get_self, ret.
  rewrite bool_decide_eq_false_2 by done.
  fold (normalized (src_path ev)).
  rewrite normalized_suffix, normalized_dirname.
  destruct (source_unit_suffix (src_path ev)); [|done]. simpl.
  by destruct (startswith_any _ _).
Qed.

Lemma startswith_any_elem d (ws : gset string) wp :
  wp ∈ ws -> startswith d wp = true -> startswith_any d (elements ws) = true.
Proof.
  intros Hin Hsw. unfold startswith_any. apply existsb_exists.
  exists wp. split; [|done]. apply list_elem_of_In. by apply elem_of_elements.
Qed.

Lemma startswith_any_none d (ws : gset string) :
  (forall wp, wp ∈ ws -> startswith d wp = false) ->
  startswith_any d (elements ws) = false.
Proof.
  intros Hno. unfold startswith_any. apply not_true_is_false.
  intros (wp & Hin & Hsw)%existsb_exists.
  apply list_elem_of_In, elem_of_elements in Hin. by rewrite Hno in Hsw.
Qed.

(** [reload] and [dispatch] on some events. *)
Example reload_exec :
  reload posix_host (watching "exec" ∅ ∅) =
    (Stop ProcessReplaced,
     mkWorld (self (watching "exec" ∅ ∅))
       [CallReload;
        Execvpe "/usr/bin/python" ["/usr/bin/python"; "app.py"] []] 0).
Proof. reflexivity. Qed.

Example dispatch_noise :
  dispatch posix_host (mkEvent "/srv/app/notes.txt")
           (watching "exec" ∅ {[ "/srv/app" ]}) =
    (Done tt, watching "exec" ∅ {[ "/srv/app" ]}).
Proof. by vm_compute. Qed.

Example dispatch_extra_and_source :
  log (dispatch posix_host (mkEvent "/x/a.py")
         (watching "spawn_exit" {[ "/x/a.py" ]} {[ "/x" ]})).2 =
    [CallReload; Popen ["/usr/bin/python"; "app.py"] []; InterruptMain].
Proof. by vm_compute. Qed.

(** C2, as amended.  An event whose path has a source-unit suffix and whose
    containing directory is a member of the watch set, or nested under one,
    makes [dispatch] enter [reload] exactly once; an event whose path is not
    an extra path and whose containing directory does not start, as a string,
    with any member of the watch set enters [reload] zero times and returns. *)
Theorem dispatch_watched_source_reloads_once :
  (forall h ev w wp,
      source_unit_suffix (src_path ev) = true ->
      wp ∈ _watch_paths (self w) ->
      is_or_under (dirname (src_path ev)) wp = true ->
      reload_calls (log (dispatch h ev w).2) = S (reload_calls (log w))) /\
  (forall h ev w,
      src_path ev ∉ _extra_paths (self w) ->
      (forall wp, wp ∈ _watch_paths (self w) ->
                  startswith (dirname (src_path ev)) wp = false) ->
      dispatch h ev w = (Done tt, w) /\
      reload_calls (log (dispatch h ev w).2) = reload_calls (log w)).
Proof.
  split.
  - intros h ev w wp Hsuf Hwp Hunder.
    destruct (decide (src_path ev ∈ _extra_paths (self w))) as [Hin|Hin].
    + destruct (dispatch_extra h ev w Hin) as (s & w' & -> & Hc). done.
    + rewrite dispatch_not_extra, Hsuf by done.
      rewrite (startswith_any_elem _ _ wp)
        by (try apply is_or_under_startswith; done).
      simpl. destruct (reload_stops h w) as (s & w' & -> & Hc). done.
  - intros h ev w Hin Hno.
    assert (dispatch h ev w = (Done tt, w)) as ->; [|done].
    rewrite dispatch_not_extra by done.
    rewrite startswith_any_none by done. by rewrite andb_false_r.
Qed.

(** The amended C2 while [/a] is watched: at a change of [/a/b/x.pyc], and
    at a change of [/b/x.py]. *)
Lemma dispatch_watched_source_reloads_once_witness :
  reload_calls
    (log (dispatch posix_host (mkEvent "/a/b/x.pyc")
            (watching "exec" ∅ {[ "/a" ]})).2) =
    S (reload_calls (log (watching "exec" ∅ {[ "/a" ]}))) /\
  (dispatch posix_host (mkEvent "/b/x.py") (watching "exec" ∅ {[ "/a" ]}) =
     (Done tt, watching "exec" ∅ {[ "/a" ]}) /\
   reload_calls
     (log (dispatch posix_host (mkEvent "/b/x.py")
             (watching "exec" ∅ {[ "/a" ]})).2) =
     reload_calls (log (watching "exec" ∅ {[ "/a" ]}))).
Proof.
  split.
  - apply (proj1 dispatch_watched_source_reloads_once posix_host
                 (mkEvent "/a/b/x.pyc") (watching "exec" ∅ {[ "/a" ]}) "/a").
    + vm_compute. reflexivity.
    + simpl. by apply elem_of_singleton.
    + vm_compute. reflexivity.
  - apply (proj2 dispatch_watched_source_reloads_once posix_host
                 (mkEvent "/b/x.py") (watching "exec" ∅ {[ "/a" ]})).
    + simpl. apply not_elem_of_empty.
    + simpl. intros wp ->%elem_of_singleton. vm_compute. reflexivity.
Defined.

(** C2 as stated fails: [/ab] is neither [/a] nor nested under it, the
    path is not an extra path, and [dispatch] enters [reload] once. *)
Lemma dispatch_sibling_directory_reloads :
  (src_path (mkEvent "/ab/x.py")
     ∉ _extra_paths (self (watching "exec" ∅ {[ "/a" ]}))) /\
  (forall wp, wp ∈ _watch_paths (self (watching "exec" ∅ {[ "/a" ]})) ->
              is_or_under (dirname (src_path (mkEvent "/ab/x.py"))) wp = false) /\
  reload_calls (log (watching "exec" ∅ {[ "/a" ]})) = 0 /\
  reload_calls
    (log (dispatch posix_host (mkEvent "/ab/x.py")
            (watching "exec" ∅ {[ "/a" ]})).2) = 1.
Proof.
  split; [simpl; apply not_elem_of_empty|].
  split; [simpl; intros wp ->%elem_of_singleton; by vm_compute|].
  split; by vm_compute.
Qed.

(** The instance [__init__] returns holds the absolute forms of the extra
    paths it was given. *)
Lemma init_extra_paths h reload_mode force_exit extra_paths interval r :
  __init__ h reload_mode force_exit extra_paths interval = inr r ->
  _extra_paths r = list_to_set (map (abspath h) (default [] extra_paths)).
Proof. unfold __init__. case_bool_decide; [done|]. by intros [= <-]. Qed.

(** C3.  An event whose path is a member of the extra paths of the
    instance, which are the absolute forms of the paths it was built with,
    makes [dispatch] enter [reload], whatever its suffix; an event whose
    path is not an extra path and has no source-unit suffix enters [reload]
    zero times, whatever the watch set; so with the extra path
    [/x/config.ini], an event for [/x/config.ini] reloads and one for
    [/x/other.ini] does not. *)
Theorem dispatch_extra_path_reloads :
  (forall h ev w,
      src_path ev ∈ _extra_paths (self w) ->
      reload_calls (log (dispatch h ev w).2) = S (reload_calls (log w))) /\
  (forall h reload_mode force_exit extra_paths interval r x h' ev w,
      __init__ h reload_mode force_exit (Some extra_paths) interval = inr r ->
      x ∈ extra_paths ->
      self w = r ->
      src_path ev = abspath h x ->
      reload_calls (log (dispatch h' ev w).2) = S (reload_calls (log w))) /\
  (forall h ev w,
      src_path ev ∉ _extra_paths (self w) ->
      source_unit_suffix (src_path ev) = false ->
      dispatch h ev w = (Done tt, w) /\
      reload_calls (log (dispatch h ev w).2) = reload_calls (log w)) /\
  (forall h w,
      _extra_paths (self w) = {[ "/x/config.ini" ]} ->
      reload_calls (log (dispatch h (mkEvent "/x/config.ini") w).2) =
        S (reload_calls (log w)) /\
      reload_calls (log (dispatch h (mkEvent "/x/other.ini") w).2) =
        reload_calls (log w)).
Proof.
  assert (forall h ev w,
             src_path ev ∈ _extra_paths (self w) ->
             reload_calls (log (dispatch h ev w).2) =
               S (reload_calls (log w))) as Hextra.
  { intros h ev w Hin.
    destruct (dispatch_extra h ev w Hin) as (s & w' & -> & Hc). done. }
  assert (forall h ev w,
             src_path ev ∉ _extra_paths (self w) ->
             source_unit_suffix (src_path ev) = false ->
             dispatch h ev w = (Done tt, w)) as Hquiet.
  { intros h ev w Hin Hsuf. by rewrite dispatch_not_extra, Hsuf. }
  split; [done|]. split; [|split].
  - intros h reload_mode force_exit extra_paths interval r x h' ev w
      Hinit Hx Hself Hpath.
    apply Hextra. rewrite Hself, (init_extra_paths _ _ _ _ _ _ Hinit), Hpath.
    simpl. apply elem_of_list_to_set, list_elem_of_fmap. by exists x.
  - intros h ev w Hin Hsuf. by rewrite Hquiet.
  - intros h w Hx. split.
    + apply Hextra. simpl. rewrite Hx. by apply elem_of_singleton.
    + rewrite Hquiet; [done| |by vm_compute].
      simpl. rewrite Hx. by intros [=]%elem_of_singleton.
Qed.

(** C3 at the extra path [/x/config.ini]: at a change of it, in an instance
    built with it, and at a change of [/x/other.ini]. *)
Lemma dispatch_extra_path_reloads_witness :
  reload_calls
    (log (dispatch posix_host (mkEvent "/x/config.ini")
            (watching "spawn_wait" {[ "/x/config.ini" ]} {[ "/x" ]})).2) =
    S (reload_calls (log (watching "spawn_wait" {[ "/x/config.ini" ]} {[ "/x" ]}))) /\
  reload_calls
    (log (dispatch posix_host (mkEvent "/x/config.ini")
            (watching "exec" {[ "/x/config.ini" ]} ∅)).2) =
    S (reload_calls (log (watching "exec" {[ "/x/config.ini" ]} ∅))) /\
  (dispatch posix_host (mkEvent "/x/other.ini")
     (watching "spawn_wait" {[ "/x/config.ini" ]} {[ "/x" ]}) =
     (Done tt, watching "spawn_wait" {[ "/x/config.ini" ]} {[ "/x" ]}) /\
   reload_calls
     (log (dispatch posix_host (mkEvent "/x/other.ini")
             (watching "spawn_wait" {[ "/x/config.ini" ]} {[ "/x" ]})).2) =
     reload_calls (log (watching "spawn_wait" {[ "/x/config.ini" ]} {[ "/x" ]}))).
Proof.
  split; [|split].
  - apply (proj1 dispatch_extra_path_reloads posix_host
                 (mkEvent "/x/config.ini")
                 (watching "spawn_wait" {[ "/x/config.ini" ]} {[ "/x" ]})).
    simpl. by apply elem_of_singleton.
  - apply (proj1 (proj2 dispatch_extra_path_reloads) posix_host
                 (Some "exec") false ["/x/config.ini"] 1%Z
                 (self (watching "exec" {[ "/x/config.ini" ]} ∅))
                 "/x/config.ini" posix_host (mkEvent "/x/config.ini")
                 (watching "exec" {[ "/x/config.ini" ]} ∅)).
    + vm_compute. reflexivity.
    + left.
    + reflexivity.
    + reflexivity.
  - apply (proj1 (proj2 (proj2 dispatch_extra_path_reloads)) posix_host
                 (mkEvent "/x/other.ini")
                 (watching "spawn_wait" {[ "/x/config.ini" ]} {[ "/x" ]})).
    + simpl. intros [=]%elem_of_singleton.
    + vm_compute. reflexivity.
Defined.

Lemma valid_mode_inv mode :
  mode ∈ RELOAD_MODE_VALUES ->
  mode = RELOAD_MODE_V_EXEC \/ mode = RELOAD_MODE_V_SPAWN_EXIT \/
  mode = RELOAD_MODE_V_SPAWN_WAIT.
Proof.
  unfold RELOAD_MODE_VALUES.
  rewrite !elem_of_cons, elem_of_nil. tauto.
Qed.

Lemma strategy_no_ValueError h w m :
  (reload_using_exec h w).1 <> Stop (Raised (ValueError m)) /\
  (reload_using_spawn_exit h w).1 <> Stop (Raised (ValueError m)) /\
  (reload_using_spawn_wait h w).1 <> Stop (Raised (ValueError m)).
Proof.
  unfold reload_using_exec, reload_using_spawn_exit, reload_using_spawn_wait,
    subprocess_call, subprocess_Popen, bind, tell, get_self, put_self,
    raise, halt, ret. simpl.
  repeat match goal with
         | |- context [if ?c then _ else _] => destruct c; simpl
         end;
    repeat split; intros [=].
Qed.

(** C6.  A reload mode that is given and is none of [exec], [spawn_exit],
    [spawn_wait] makes the constructor raise [ValueError], whatever the
    platform; and for an instance the constructor returned, [reload] runs
    the one strategy its mode names and never raises the [ValueError] of
    its last branch. *)
Theorem invalid_reload_mode_rejected :
  (forall h mode force_exit extra_paths interval,
      mode ∉ RELOAD_MODE_VALUES ->
      __init__ h (Some mode) force_exit extra_paths interval =
        inl (ValueError mode)) /\
  (forall h reload_mode force_exit extra_paths interval r,
      __init__ h reload_mode force_exit extra_paths interval = inr r ->
      _reload_mode r ∈ RELOAD_MODE_VALUES /\
      forall h' w, self w = r ->
        ((_reload_mode r = RELOAD_MODE_V_EXEC /\
          reload h' w = reload_using_exec h' (entered w)) \/
         (_reload_mode r = RELOAD_MODE_V_SPAWN_EXIT /\
          reload h' w = reload_using_spawn_exit h' (entered w)) \/
         (_reload_mode r = RELOAD_MODE_V_SPAWN_WAIT /\
          reload h' w = reload_using_spawn_wait h' (entered w))) /\
        forall m, (reload h' w).1 <> Stop (Raised (ValueError m))).
Proof.
  split.
  - intros h mode force_exit extra_paths interval Hbad. unfold __init__.
    by rewrite bool_decide_eq_true_2.
  - intros h reload_mode force_exit extra_paths interval r. unfold __init__.
    case_bool_decide as Hmode; [done|]. intros [= <-]. simpl.
    set (mode := match reload_mode with
                 | Some mode => mode
                 | None => _
                 end) in *.
    clearbody mode. split; [done|]. intros h' w Hself.
    assert (reload h' w =
              (if String.eqb mode RELOAD_MODE_V_EXEC
               then reload_using_exec h'
               else if String.eqb mode RELOAD_MODE_V_SPAWN_EXIT
               then reload_using_spawn_exit h'
               else if String.eqb mode RELOAD_MODE_V_SPAWN_WAIT
               then reload_using_spawn_wait h'
               else raise (ValueError mode)) (entered w)) as Hre.
    { unfold reload, bind, tell, get_self, entered. simpl. by rewrite Hself. }
    destruct (valid_mode_inv _ Hmode) as [E|[E|E]];
      rewrite E in Hre |- *; simpl in Hre; rewrite Hre;
      (split; [tauto|]); intros m; apply strategy_no_ValueError.
Qed.

(** C6 at the mode [restart], and at the instance built with the mode
    [spawn_exit]. *)
Lemma invalid_reload_mode_rejected_witness :
  __init__ posix_host (Some "restart") false None 1 =
    inl (ValueError "restart") /\
  reload posix_host (watching "spawn_exit" ∅ ∅) =
    reload_using_spawn_exit posix_host (entered (watching "spawn_exit" ∅ ∅)).
Proof.
  split.
  - apply (proj1 invalid_reload_mode_rejected posix_host "restart" false None
                 1%Z).
    unfold RELOAD_MODE_VALUES. apply (bool_decide_unpack _). by vm_compute.
  - destruct (proj2 invalid_reload_mode_rejected posix_host (Some "spawn_exit")
                false None 1%Z (self (watching "spawn_exit" ∅ ∅)) eq_refl)
      as [_ Hreload].
    destruct (Hreload posix_host (watching "spawn_exit" ∅ ∅) eq_refl)
      as [[[Hmode _]|[[_ Hrun]|[Hmode _]]] _].
    + discriminate Hmode.
    + exact Hrun.
    + discriminate Hmode.
Defined.

End ReloaderFacts.

(** ** WatchSynchronizer: facts about the reconciliation pass *)

Module WatcherFacts.
Import PyStr PathSet Reloader Watcher ReloaderSpec WatcherSpec ReloaderFacts.
Local Open Scope reload_scope.

Lemma valid_order_elem order X x : valid_order order -> x ∈ order X <-> x ∈ X.
Proof. intros Hv. by rewrite (Hv X), elem_of_elements. Qed.

Lemma valid_order_to_set order X :
  valid_order order -> list_to_set (order X) = X.
Proof.
  intros Hv. apply set_eq. intros x.
  by rewrite elem_of_list_to_set, valid_order_elem.
Qed.

(** The two loop bodies, run. *)
Lemma register_step_run t x st w :
  register_step t x st w =
    if bool_decide (x ∉ dom st.2) then
      if can_watch t x then
        (Done (st.1 ∖ {[ x ]}, <[x := Some (next_watch w)]> st.2),
         mkWorld (self w)
                 (log w ++ [Schedule x true (Some (next_watch w))])
                 (S (next_watch w)))
      else
        (Done (st.1 ∖ {[ x ]}, <[x := None]> st.2),
         mkWorld (self w) (log w ++ [Schedule x true None]) (next_watch w))
    else (Done (st.1 ∖ {[ x ]}, st.2), w).
Proof.
  unfold register_step, try_except_OSError, observer_schedule, bind, ret.
  case_bool_decide; [|done]. by destruct (can_watch t x).
Qed.

Lemma unregister_step_run x (m : gmap string (option watch)) w :
  unregister_step x m w =
    (Done (delete x m),
     match m !! x with
     | Some (Some y) =>
         mkWorld (self w) (log w ++ [Unschedule (Some y)]) (next_watch w)
     | _ => w
     end).
Proof.
  unfold unregister_step, observer_unschedule, bind, tell, ret.
  destruct (m !! x) as [[y|]|]; simpl; try case_bool_decide; done.
Qed.

(** The rule of the [for] loop: an invariant of the part of the list that
    has been processed. *)
Lemma for_each_rule {A S} (body : A -> S -> M S) (xs : list A)
    (I : list A -> S -> world -> Prop) :
  (forall seen x st w,
      x ∈ xs -> I seen st w ->
      exists st' w', body x st w = (Done st', w') /\ I (seen ++ [x]) st' w') ->
  forall st w,
    I [] st w ->
    exists st' w', for_each xs body st w = (Done st', w') /\ I xs st' w'.
Proof.
  intros Hbody.
  assert (forall ys seen st w,
             (forall x, x ∈ ys -> x ∈ xs) -> I seen st w ->
             exists st' w', for_each ys body st w = (Done st', w') /\
                            I (seen ++ ys) st' w') as Hgen.
  { induction ys as [|y ys IH]; intros seen st w Hsub HI; simpl.
    - exists st, w. by rewrite app_nil_r.
    - destruct (Hbody seen y st w) as (st1 & w1 & Hrun & HI1); [apply Hsub; left|done|].
      destruct (IH (seen ++ [y]) st1 w1) as (st2 & w2 & Hrun2 & HI2);
        [intros x Hx; apply Hsub; by right|done|].
      exists st2, w2. unfold bind. rewrite Hrun, Hrun2.
      by rewrite <- app_assoc in HI2. }
  intros st w HI. by apply (Hgen xs [] st w).
Qed.

(** A pass is its two loops, then the publication and the sleep. *)
Lemma watch_pass_run h t (m : gmap string (option watch)) w st w1 m2 w2 :
  for_each (set_order t (_find_watch_paths h (self w) t)) (register_step t)
           (dom m, m) w = (Done st, w1) ->
  for_each (set_order t st.1) unregister_step st.2 w1 = (Done m2, w2) ->
  watch_pass h t m w =
    (Done m2,
     mkWorld (published (self w2) (_find_watch_paths h (self w) t))
             (log w2 ++ [Sleep (_interval (self w2))]) (next_watch w2)).
Proof.
  intros H1 H2. unfold watch_pass, bind, get_self, put_self, tell, ret.
  by rewrite H1, H2.
Qed.

Lemma schedule_attempts_snoc p l e :
  schedule_attempts p (l ++ [e]) =
    schedule_attempts p l ++
      match e with
      | Schedule q _ _ => if bool_decide (q = p) then [e] else []
      | _ => []
      end.
Proof.
  unfold schedule_attempts. rewrite List.filter_app. f_equal.
  destruct e; simpl; try done; by case_bool_decide.
Qed.

(** The loop over the desired paths: the paths seen leave the old set and
    enter the table; the entries that were there stay as they were and are
    not scheduled again; a new path that cannot be watched is entered as
    [None]. *)
Lemma register_loop_spec t xs (m : gmap string (option watch)) old w :
  exists st w',
    for_each xs (register_step t) (old, m) w = (Done st, w') /\
    st.1 = old ∖ list_to_set xs /\
    dom st.2 = dom m ∪ list_to_set xs /\
    self w' = self w /\
    (forall p, p ∈ dom m ->
               st.2 !! p = m !! p /\
               schedule_attempts p (log w') = schedule_attempts p (log w)) /\
    (forall p, p ∉ dom m -> can_watch t p = false -> p ∈ xs ->
               st.2 !! p = Some None /\ Schedule p true None ∈ log w').
Proof.
  apply (for_each_rule (register_step t) xs
           (fun seen st w' =>
              st.1 = old ∖ list_to_set seen /\
              dom st.2 = dom m ∪ list_to_set seen /\
              self w' = self w /\
              (forall p, p ∈ dom m ->
                 st.2 !! p = m !! p /\
                 schedule_attempts p (log w') = schedule_attempts p (log w)) /\
              (forall p, p ∉ dom m -> can_watch t p = false -> p ∈ seen ->
                 st.2 !! p = Some None /\ Schedule p true None ∈ log w'))).
  - intros seen x [old' m'] w0 _ (Hold & Hdom & Hself & Hkeep & Hnew).
    simpl in *. rewrite register_step_run. simpl.
    case_bool_decide as Hx; [destruct (can_watch t x) eqn:Hcan|];
      eexists _, _; (split; [reflexivity|]); simpl;
      rewrite ?dom_insert_L, list_to_set_app_L, Hold, ?Hdom; simpl;
      (split; [set_solver|]); (split; [set_solver|]); (split; [done|]).
    + assert ((x ∉ dom m) /\ x ∉ seen) as [Hxm Hxs] by set_solver.
      split.
      * intros p Hp. assert (x <> p) by set_solver.
        rewrite lookup_insert_ne, schedule_attempts_snoc by done. simpl.
        rewrite bool_decide_eq_false_2, app_nil_r by done. by apply Hkeep.
      * intros p Hp Hcanp [Hin| ->%list_elem_of_singleton]%elem_of_app;
          [|congruence].
        assert (x <> p) by set_solver. rewrite lookup_insert_ne by done.
        destruct (Hnew p Hp Hcanp Hin) as [Hl He]. split; [done|].
        apply elem_of_app. by left.
    + assert ((x ∉ dom m) /\ x ∉ seen) as [Hxm Hxs] by set_solver.
      split.
      * intros p Hp. assert (x <> p) by set_solver.
        rewrite lookup_insert_ne, schedule_attempts_snoc by done. simpl.
        rewrite bool_decide_eq_false_2, app_nil_r by done. by apply Hkeep.
      * intros p Hp Hcanp [Hin| ->%list_elem_of_singleton]%elem_of_app.
        -- assert (x <> p) by set_solver. rewrite lookup_insert_ne by done.
           destruct (Hnew p Hp Hcanp Hin) as [Hl He]. split; [done|].
           apply elem_of_app. by left.
        -- rewrite lookup_insert_eq. split; [done|].
           apply elem_of_app. right. by apply list_elem_of_singleton.
    + split; [done|].
      intros p Hp Hcanp [Hin| ->%list_elem_of_singleton]%elem_of_app; [auto|].
      apply Hnew; [done..|]. set_solver.
  - simpl. split; [set_solver|]. split; [set_solver|]. split; [done|].
    split; [done|]. by intros p _ _ ?%elem_of_nil.
Qed.

(** The loop over the old paths: they leave the table, the other entries
    stay, and nothing is scheduled. *)
Lemma unregister_loop_spec xs (m : gmap string (option watch)) w :
  exists m' w',
    for_each xs unregister_step m w = (Done m', w') /\
    dom m' = dom m ∖ list_to_set xs /\
    self w' = self w /\
    (forall p, p ∉ xs -> m' !! p = m !! p) /\
    (forall p, schedule_attempts p (log w') = schedule_attempts p (log w)) /\
    (forall e, e ∈ log w -> e ∈ log w').
Proof.
  apply (for_each_rule unregister_step xs
           (fun seen m' w' =>
              dom m' = dom m ∖ list_to_set seen /\
              self w' = self w /\
              (forall p, p ∉ seen -> m' !! p = m !! p) /\
              (forall p, schedule_attempts p (log w') =
                           schedule_attempts p (log w)) /\
              (forall e, e ∈ log w -> e ∈ log w'))).
  - intros seen x m' w0 _ (Hdom & Hself & Hkeep & Hatt & Hmono).
    rewrite unregister_step_run. eexists _, _. split; [reflexivity|].
    rewrite dom_delete_L, list_to_set_app_L, Hdom.
    split; [set_solver|]. split; [by destruct (m' !! x) as [[y|]|]|].
    split; [|split].
    + intros p Hp. rewrite not_elem_of_app, list_elem_of_singleton in Hp.
      destruct Hp as [Hp1 Hp2]. rewrite lookup_delete_ne by done. auto.
    + intros p. destruct (m' !! x) as [[y|]|]; simpl; [|done..].
      by rewrite schedule_attempts_snoc, app_nil_r.
    + intros e He. destruct (m' !! x) as [[y|]|]; simpl; [|auto..].
      apply elem_of_app. left. auto.
  - simpl. split; [set_solver|]. done.
Qed.

Lemma find_watch_paths_published h r D t :
  _find_watch_paths h (published r D) t = _find_watch_paths h r t.
Proof. reflexivity. Qed.

(** One pass: the key set of the table becomes the desired set, which is
    published; the desired entries that were there stay as they were and are
    not scheduled again; a new desired path that cannot be watched is
    entered as [None]. *)
Lemma watch_pass_spec h t (m : gmap string (option watch)) w :
  valid_order (set_order t) ->
  exists m' w',
    watch_pass h t m w = (Done m', w') /\
    dom m' = _find_watch_paths h (self w) t /\
    self w' = published (self w) (_find_watch_paths h (self w) t) /\
    (forall p, p ∈ _find_watch_paths h (self w) t -> p ∈ dom m ->
               m' !! p = m !! p /\
               schedule_attempts p (log w') = schedule_attempts p (log w)) /\
    (forall p, p ∈ _find_watch_paths h (self w) t -> p ∉ dom m ->
               can_watch t p = false ->
               m' !! p = Some None /\ Schedule p true None ∈ log w').
Proof.
  intros Hv. set (D := _find_watch_paths h (self w) t).
  destruct (register_loop_spec t (set_order t D) m (dom m) w)
    as (st & w1 & H1 & Hold & Hdom & Hself1 & Hkeep1 & Hnew1).
  destruct (unregister_loop_spec (set_order t st.1) st.2 w1)
    as (m2 & w2 & H2 & Hdom2 & Hself2 & Hkeep2 & Hatt2 & Hmono2).
  rewrite valid_order_to_set in Hold, Hdom by done.
  rewrite valid_order_to_set in Hdom2 by done.
  assert (forall p, p ∈ D -> m2 !! p = st.2 !! p) as Hstay.
  { intros p Hp. apply Hkeep2. rewrite valid_order_elem by done. set_solver. }
  eexists _, _. split; [by apply (watch_pass_run h t m w st w1 m2 w2)|].
  simpl. split; [|split; [by rewrite Hself2, Hself1|split]].
  - rewrite Hdom2, Hdom, Hold.
    apply set_eq. intros x. destruct (decide (x ∈ D)); set_solver.
  - intros p HpD Hpm. destruct (Hkeep1 p Hpm) as [Hl Ha].
    rewrite Hstay, Hl by done. split; [done|].
    by rewrite schedule_attempts_snoc, app_nil_r, Hatt2.
  - intros p HpD Hpm Hcan. rewrite Hstay by done.
    destruct (Hnew1 p) as [Hl He]; [done..|by rewrite valid_order_elem|].
    split; [done|]. apply elem_of_app. left. by apply Hmono2.
Qed.

(** One pass brings the key set of the table to the desired set. *)
Lemma watch_pass_dom h t (m : gmap string (option watch)) w :
  valid_order (set_order t) ->
  exists m' w',
    watch_pass h t m w = (Done m', w') /\
    dom m' = _find_watch_paths h (self w) t /\
    _watch_paths (self w') = _find_watch_paths h (self w) t.
Proof.
  intros Hv.
  destruct (watch_pass_spec h t m w Hv) as (m' & w' & Hrun & Hdom & Hself & _).
  exists m', w'. by rewrite Hself.
Qed.

Lemma elements_valid_order : valid_order elements.
Proof. intros X. reflexivity. Qed.

(** Three iterations of the loop: [/srv/lib] cannot be watched and is not
    tried again; [/srv/app] leaves the desired set and comes back. *)
Example run_watcher_three_ticks :
  log (run_watcher posix_host [example_tick; other_tick; example_tick]
         (watching "exec" ∅ ∅)).2 =
    [ObserverStart;
     Schedule "/srv/app" true (Some 0); Schedule "/srv/lib" true None; Sleep 1;
     Unschedule (Some 0); Sleep 1;
     Schedule "/srv/app" true (Some 1); Sleep 1].
Proof. by vm_compute. Qed.

(** Once [/srv/lib] has left the desired set its entry is gone, and when it
    is desired again [observer.schedule] is called for it again. *)
Example run_watcher_retry_after_leaving :
  log (run_watcher posix_host [example_tick; app_only_tick; example_tick]
         (watching "exec" ∅ ∅)).2 =
    [ObserverStart;
     Schedule "/srv/app" true (Some 0); Schedule "/srv/lib" true None; Sleep 1;
     Sleep 1;
     Schedule "/srv/lib" true None; Sleep 1].
Proof. by vm_compute. Qed.

Example find_watch_paths_example :
  _find_watch_paths posix_host (self (watching "exec" ∅ ∅)) example_tick =
    {[ "/srv/app"; "/srv/lib" ]}.
Proof. by vm_compute. Qed.

(** C4.  Whatever table and desired set an earlier pass worked with, and in
    whatever order the sets are iterated, a pass returns with the key set of
    the registration table equal to the desired set it computed. *)
Theorem reconciliation_converges h t1 t2
    (m0 : gmap string (option watch)) w0 :
  valid_order (set_order t1) ->
  valid_order (set_order t2) ->
  exists m1 w1 m2 w2,
    watch_pass h t1 m0 w0 = (Done m1, w1) /\
    dom m1 = _find_watch_paths h (self w0) t1 /\
    watch_pass h t2 m1 w1 = (Done m2, w2) /\
    dom m2 = _find_watch_paths h (self w1) t2.
Proof.
  intros Hv1 Hv2.
  destruct (watch_pass_dom h t1 m0 w0 Hv1) as (m1 & w1 & Hrun1 & Hdom1 & _).
  destruct (watch_pass_dom h t2 m1 w1 Hv2) as (m2 & w2 & Hrun2 & Hdom2 & _).
  by exists m1, w1, m2, w2.
Qed.

(** C4 at two iterations that start from the empty table. *)
Lemma reconciliation_converges_witness :
  exists m1 w1 m2 w2,
    watch_pass posix_host example_tick ∅
               (watching "exec" ∅ ∅) = (Done m1, w1) /\
    dom m1 = _find_watch_paths posix_host
               (self (watching "exec" ∅ ∅)) example_tick /\
    watch_pass posix_host other_tick m1 w1 = (Done m2, w2) /\
    dom m2 = _find_watch_paths posix_host (self w1) other_tick.
Proof.
  apply (reconciliation_converges posix_host example_tick
           other_tick ∅ (watching "exec" ∅ ∅)).
  - intros X. reflexivity.
  - intros X. reflexivity.
Defined.

(** While a path stays desired and its entry is [None], the loop leaves the
    entry as it is and does not call [observer.schedule] for the path. *)
Lemma watch_loop_sentinel h p ticks : forall (m : gmap string (option watch)) w,
  Forall (fun t => valid_order (set_order t) /\
                   p ∈ _find_watch_paths h (self w) t) ticks ->
  m !! p = Some None ->
  exists m' w',
    watch_loop h ticks m w = (Done m', w') /\
    m' !! p = Some None /\
    schedule_attempts p (log w') = schedule_attempts p (log w).
Proof.
  induction ticks as [|t ticks IH]; intros m w Hall Hm; simpl.
  - by exists m, w.
  - apply Forall_cons in Hall as [[Hv Hp] Hall].
    unfold bind, get_self. destruct (_watcher_to_stop (self w)).
    { by exists m, w. }
    destruct (watch_pass_spec h t m w Hv)
      as (m1 & w1 & Hrun & _ & Hself & Hkeep & _).
    rewrite Hrun.
    destruct (Hkeep p Hp) as [Hl Ha]; [by apply elem_of_dom; exists None|].
    destruct (IH m1 w1) as (m2 & w2 & Hrun2 & Hl2 & Ha2).
    + eapply Forall_impl; [exact Hall|]. intros t' [Hv' Hp']. split; [done|].
      by rewrite Hself, find_watch_paths_published.
    + by rewrite Hl.
    + exists m2, w2. by rewrite Ha2, Ha.
Qed.

(** The two loops of a pass call the observer only, and leave the instance
    as it is. *)
Lemma passes_made_app l1 l2 :
  passes_made (l1 ++ l2) = passes_made l1 + passes_made l2.
Proof. unfold passes_made. by rewrite List.filter_app, List.length_app. Qed.

Lemma observer_calls_counts ext :
  Forall (fun e => is_observer_call e = true) ext ->
  passes_made ext = 0 /\ reload_calls ext = 0.
Proof.
  induction 1 as [|e ext He _ [IH1 IH2]]; [done|].
  destruct e; simpl in He; try discriminate;
    unfold passes_made, reload_calls in *; simpl; done.
Qed.

Lemma register_loop_observer_only t xs
    (st : gset string * gmap string (option watch)) w :
  exists st' w' ext,
    for_each xs (register_step t) st w = (Done st', w') /\
    self w' = self w /\ log w' = log w ++ ext /\
    Forall (fun e => is_observer_call e = true) ext.
Proof.
  set (I := fun (_ : list string)
                (_ : gset string * gmap string (option watch)) (w' : world) =>
              self w' = self w /\
              exists ext, log w' = log w ++ ext /\
                          Forall (fun e => is_observer_call e = true) ext).
  assert (forall seen x st0 w0,
             x ∈ xs -> I seen st0 w0 ->
             exists st' w', register_step t x st0 w0 = (Done st', w') /\
                            I (seen ++ [x]) st' w') as Hbody.
  { intros seen x st0 w0 _ (Hself & ext & Hlog & Hext).
    rewrite register_step_run. case_bool_decide.
    - destruct (can_watch t x).
      + eexists _, _. split; [done|]. split; [done|]. simpl.
        exists (ext ++ [Schedule x true (Some (next_watch w0))]).
        rewrite Hlog, <- app_assoc. split; [done|].
        apply Forall_app_2; [done|]. by repeat constructor.
      + eexists _, _. split; [done|]. split; [done|]. simpl.
        exists (ext ++ [Schedule x true None]).
        rewrite Hlog, <- app_assoc. split; [done|].
        apply Forall_app_2; [done|]. by repeat constructor.
    - eexists _, _. split; [done|]. split; [done|]. by exists ext. }
  destruct (for_each_rule _ xs I Hbody st w)
    as (st' & w' & Hrun & Hself & ext & Hlog & Hext).
  { split; [done|]. exists []. by rewrite app_nil_r. }
  by exists st', w', ext.
Qed.

Lemma unregister_loop_observer_only xs (m : gmap string (option watch)) w :
  exists m' w' ext,
    for_each xs unregister_step m w = (Done m', w') /\
    self w' = self w /\ log w' = log w ++ ext /\
    Forall (fun e => is_observer_call e = true) ext.
Proof.
  set (I := fun (_ : list string) (_ : gmap string (option watch))
                (w' : world) =>
              self w' = self w /\
              exists ext, log w' = log w ++ ext /\
                          Forall (fun e => is_observer_call e = true) ext).
  assert (forall seen x m0 w0,
             x ∈ xs -> I seen m0 w0 ->
             exists m' w', unregister_step x m0 w0 = (Done m', w') /\
                           I (seen ++ [x]) m' w') as Hbody.
  { intros seen x m0 w0 _ (Hself & ext & Hlog & Hext).
    rewrite unregister_step_run. eexists _, _. split; [done|].
    destruct (m0 !! x) as [[y|]|].
    - split; [done|]. simpl. exists (ext ++ [Unschedule (Some y)]).
      rewrite Hlog, <- app_assoc. split; [done|].
      apply Forall_app_2; [done|]. by repeat constructor.
    - split; [done|]. by exists ext.
    - split; [done|]. by exists ext. }
  destruct (for_each_rule _ xs I Hbody m w)
    as (m' & w' & Hrun & Hself & ext & Hlog & Hext).
  { split; [done|]. exists []. by rewrite app_nil_r. }
  by exists m', w', ext.
Qed.

(** A pass returns: it calls the observer, stores the new watch paths and
    sleeps, once. *)
Lemma watch_pass_log h t (m : gmap string (option watch)) w :
  exists m' w' ext,
    watch_pass h t m w = (Done m', w') /\
    self w' = published (self w) (_find_watch_paths h (self w) t) /\
    log w' = log w ++ ext ++ [Sleep (_interval (self w))] /\
    Forall (fun e => is_observer_call e = true) ext.
Proof.
  destruct (register_loop_observer_only t
              (set_order t (_find_watch_paths h (self w) t)) (dom m, m) w)
    as (st & w1 & e1 & H1 & Hs1 & Hl1 & He1).
  destruct (unregister_loop_observer_only (set_order t st.1) st.2 w1)
    as (m2 & w2 & e2 & H2 & Hs2 & Hl2 & He2).
  exists m2. eexists. exists (e1 ++ e2).
  split; [by apply (watch_pass_run h t m w st w1 m2 w2)|]. simpl.
  rewrite Hs2, Hs1, Hl2, Hl1. split; [done|].
  split; [by rewrite <- !app_assoc|by apply Forall_app_2].
Qed.

Lemma watch_pass_counts h t (m : gmap string (option watch)) w :
  exists m' w',
    watch_pass h t m w = (Done m', w') /\
    _watcher_to_stop (self w') = _watcher_to_stop (self w) /\
    passes_made (log w') = S (passes_made (log w)) /\
    reload_calls (log w') = reload_calls (log w).
Proof.
  destruct (watch_pass_log h t m w)
    as (m' & w' & ext & Hrun & Hself & Hlog & Hext).
  destruct (observer_calls_counts ext Hext) as [Hp Hr].
  exists m', w'. split; [done|]. rewrite Hself, Hlog. split; [done|].
  rewrite !passes_made_app, !reload_calls_app, Hp, Hr.
  change (passes_made [Sleep (_interval (self w))]) with 1.
  change (reload_calls [Sleep (_interval (self w))]) with 0.
  split; lia.
Qed.

(** As long as the stop flag is not set the loop makes a pass at every
    iteration, and it never enters [reload]. *)
Lemma watch_loop_counts h ticks : forall (m : gmap string (option watch)) w,
  _watcher_to_stop (self w) = false ->
  exists m' w',
    watch_loop h ticks m w = (Done m', w') /\
    _watcher_to_stop (self w') = false /\
    passes_made (log w') = passes_made (log w) + length ticks /\
    reload_calls (log w') = reload_calls (log w).
Proof.
  induction ticks as [|t ticks IH]; intros m w Hflag; simpl.
  - exists m, w. split; [done|]. split; [done|]. split; [lia|done].
  - unfold bind, get_self. rewrite Hflag.
    destruct (watch_pass_counts h t m w) as (m1 & w1 & -> & Hf1 & Hp1 & Hr1).
    destruct (IH m1 w1) as (m2 & w2 & Hrun2 & Hf2 & Hp2 & Hr2);
      [by rewrite Hf1|].
    exists m2, w2. split; [done|]. split; [done|]. split; [lia|congruence].
Qed.

(** C5.  When [observer.schedule] fails for a desired path that is not in
    the table, the pass goes on and returns: the path is entered as [None],
    the key set of the table is the desired set, and the pass ends with its
    sleep.  Over the following iterations in which the path stays desired
    the entry stays [None] and [observer.schedule] is not called for the
    path again; and when the stop flag is not set, the loop makes the pass
    of the failure and each of the following ones, and the flag stays
    unset. *)
Theorem unwatchable_path_never_retried h t ticks
    (m : gmap string (option watch)) w p :
  valid_order (set_order t) ->
  Forall (fun t' => valid_order (set_order t') /\
                    p ∈ _find_watch_paths h (self w) t') ticks ->
  p ∈ _find_watch_paths h (self w) t ->
  p ∉ dom m ->
  can_watch t p = false ->
  exists m1 w1 m2 w2,
    watch_pass h t m w = (Done m1, w1) /\
    m1 !! p = Some None /\
    Schedule p true None ∈ log w1 /\
    dom m1 = _find_watch_paths h (self w) t /\
    passes_made (log w1) = S (passes_made (log w)) /\
    watch_loop h ticks m1 w1 = (Done m2, w2) /\
    m2 !! p = Some None /\
    schedule_attempts p (log w2) = schedule_attempts p (log w1) /\
    (_watcher_to_stop (self w) = false ->
     watch_loop h (t :: ticks) m w = (Done m2, w2) /\
     passes_made (log w2) = passes_made (log w) + S (length ticks) /\
     _watcher_to_stop (self w2) = false).
Proof.
  intros Hv Hall Hp Hpm Hcan.
  destruct (watch_pass_spec h t m w Hv)
    as (m1 & w1 & Hrun & Hdom & Hself & _ & Hnew).
  destruct (Hnew p Hp Hpm Hcan) as [Hl He].
  destruct (watch_loop_sentinel h p ticks m1 w1) as (m2 & w2 & Hrun2 & Hl2 & Ha2).
  { eapply Forall_impl; [exact Hall|]. intros t' [Hv' Hp']. split; [done|].
    by rewrite Hself, find_watch_paths_published. }
  { done. }
  destruct (watch_pass_counts h t m w) as (m1' & w1' & Hrun' & Hf1 & Hp1 & _).
  assert (m1' = m1 /\ w1' = w1) as [-> ->].
  { rewrite Hrun in Hrun'. by inversion Hrun'. }
  exists m1, w1, m2, w2.
  do 8 (split; [done|]). intros Hflag.
  destruct (watch_loop_counts h ticks m1 w1)
    as (m2' & w2' & Hrun2' & Hf2 & Hp2 & _); [by rewrite Hf1|].
  assert (m2' = m2 /\ w2' = w2) as [-> ->].
  { rewrite Hrun2 in Hrun2'. by inversion Hrun2'. }
  split; [|split; [lia|done]].
  simpl. unfold bind, get_self. by rewrite Hflag, Hrun.
Qed.

(** C5 at the path [/srv/lib], which cannot be watched and stays desired
    over two further iterations: the loop makes the three passes and calls
    [observer.schedule] for the path once. *)
Lemma unwatchable_path_never_retried_witness :
  exists m1 w1 m2 w2,
    watch_pass posix_host example_tick ∅
               (watching "exec" ∅ ∅) = (Done m1, w1) /\
    m1 !! "/srv/lib" = Some None /\
    Schedule "/srv/lib" true None ∈ log w1 /\
    dom m1 = {[ "/srv/app"; "/srv/lib" ]} /\
    watch_loop posix_host [other_tick; example_tick] m1 w1 =
      (Done m2, w2) /\
    m2 !! "/srv/lib" = Some None /\
    schedule_attempts "/srv/lib" (log w2) = schedule_attempts "/srv/lib" (log w1) /\
    watch_loop posix_host [example_tick; other_tick; example_tick] ∅
               (watching "exec" ∅ ∅) = (Done m2, w2) /\
    passes_made (log w2) = 3.
Proof.
  destruct (unwatchable_path_never_retried posix_host example_tick
              [other_tick; example_tick] ∅ (watching "exec" ∅ ∅)
              "/srv/lib")
    as (m1 & w1 & m2 & w2 & Hrun & Hl & He & Hdom & _ & Hrun2 & Hl2 & Ha & Hgo).
  - intros X. reflexivity.
  - repeat constructor; try (intros X; reflexivity); vm_compute; reflexivity.
  - vm_compute. reflexivity.
  - rewrite dom_empty_L. apply not_elem_of_empty.
  - reflexivity.
  - destruct (Hgo eq_refl) as (Hloop & Hpasses & _).
    exists m1, w1, m2, w2.
    split; [exact Hrun|]. split; [exact Hl|]. split; [exact He|].
    split; [rewrite Hdom; vm_compute; reflexivity|].
    split; [exact Hrun2|]. split; [exact Hl2|]. split; [exact Ha|].
    split; [exact Hloop|exact Hpasses].
Defined.

Lemma snoc_split {A} (l l1 l2 : list A) e a :
  l ++ [e] = l1 ++ a :: l2 ->
  (l2 = [] /\ l1 = l /\ a = e) \/
  exists l2', l2 = l2' ++ [e] /\ l = l1 ++ a :: l2'.
Proof.
  destruct l2 as [|b l2' _] using rev_ind.
  - intros [-> ->]%app_inj_tail. by left.
  - rewrite app_comm_cons, app_assoc. intros [-> ->]%app_inj_tail.
    right. by exists l2'.
Qed.

Lemma scheduled_snoc l e :
  scheduled (l ++ [e]) =
    scheduled l ++ match e with Schedule _ _ (Some x) => [x] | _ => [] end.
Proof.
  unfold scheduled. rewrite omap_app. f_equal.
  by destruct e as [| | | | | | |? ? [?|]| |].
Qed.

Lemma unscheduled_snoc l e :
  unscheduled (l ++ [e]) =
    unscheduled l ++ match e with Unschedule x => [x] | _ => [] end.
Proof. unfold unscheduled. rewrite omap_app. f_equal. by destruct e. Qed.

Lemma scheduled_app_l l1 l2 y : y ∈ scheduled l1 -> y ∈ scheduled (l1 ++ l2).
Proof. unfold scheduled. rewrite omap_app, elem_of_app. by left. Qed.

Lemma unscheduled_split l x :
  x ∈ unscheduled l -> exists l1 l2, l = l1 ++ Unschedule x :: l2.
Proof.
  unfold unscheduled. intros (e & He & Hx)%list_elem_of_omap.
  destruct e; simplify_eq. by apply list_elem_of_split.
Qed.

Lemma elem_scheduled l y :
  y ∈ scheduled l <-> exists p recursive, Schedule p recursive (Some y) ∈ l.
Proof.
  unfold scheduled. rewrite list_elem_of_omap. split.
  - intros (e & He & Hy). destruct e as [| | | | | | |p r [x|]| |]; simplify_eq.
    by exists p, r.
  - intros (p & r & He). by exists (Schedule p r (Some y)).
Qed.

Lemma unschedule_sound_snoc_other l e :
  (forall x, e <> Unschedule x) ->
  unschedule_sound l -> unschedule_sound (l ++ [e]).
Proof.
  intros He [Hnd Hpre]. split.
  - rewrite unscheduled_snoc. destruct e; rewrite ?app_nil_r; try done.
    by destruct (He watch_obj).
  - intros l1 x l2 [(_ & _ & Heq)|(l2' & -> & ->)]%snoc_split;
      [by destruct (He x)|].
    by apply (Hpre l1 x l2').
Qed.

Lemma unschedule_sound_snoc_unschedule l y :
  y ∈ scheduled l -> Some y ∉ unscheduled l ->
  unschedule_sound l -> unschedule_sound (l ++ [Unschedule (Some y)]).
Proof.
  intros Hy Hnot [Hnd Hpre]. split.
  - rewrite unscheduled_snoc. apply NoDup_app. split; [done|].
    split; [|apply NoDup_singleton].
    intros x Hx ->%list_elem_of_singleton. done.
  - intros l1 x l2 [(_ & -> & [= ->])|(l2' & -> & ->)]%snoc_split;
      [by exists y|].
    by apply (Hpre l1 x l2').
Qed.

(** A watch object the observer has not handed out yet has not been
    unscheduled. *)
Lemma fresh_not_unscheduled l n :
  unschedule_sound l ->
  (forall y, y ∈ scheduled l -> y < n) ->
  Some n ∉ unscheduled l.
Proof.
  intros [_ Hpre] Hlt (l1 & l2 & ->)%unscheduled_split.
  destruct (Hpre l1 (Some n) l2 eq_refl) as (y & [= <-] & Hy).
  apply (scheduled_app_l _ (Unschedule (Some n) :: l2)) in Hy.
  apply Hlt in Hy. lia.
Qed.

Lemma table_inv_register t x st w st' w' :
  register_step t x st w = (Done st', w') ->
  table_inv st.2 w -> table_inv st'.2 w'.
Proof.
  rewrite register_step_run. intros Hrun (Hsound & Hlt & Hlive & Hinj).
  case_bool_decide as Hx; [destruct (can_watch t x)|]; simplify_eq;
    unfold table_inv; simpl; [| |done].
  - assert (Some (next_watch w) ∉ unscheduled (log w)) as Hfresh
      by by apply fresh_not_unscheduled.
    split; [apply unschedule_sound_snoc_other; [done|done]|].
    rewrite scheduled_snoc, unscheduled_snoc, app_nil_r.
    split; [|split].
    + intros y [Hy| ->%list_elem_of_singleton]%elem_of_app; [|lia].
      apply Hlt in Hy. lia.
    + intros p y. rewrite lookup_insert. case_decide as Hp.
      * intros [= <-]. split; [|done]. apply elem_of_app. right.
        by apply list_elem_of_singleton.
      * intros [Hy Hn]%Hlive. split; [|done]. apply elem_of_app. by left.
    + intros p1 p2 y. rewrite !lookup_insert.
      repeat case_decide; simplify_eq; try done.
      * intros [= <-] [Hy _]%Hlive. apply Hlt in Hy. lia.
      * intros [Hy _]%Hlive [= <-]. apply Hlt in Hy. lia.
      * apply Hinj.
  - split; [apply unschedule_sound_snoc_other; [done|done]|].
    rewrite scheduled_snoc, unscheduled_snoc, !app_nil_r.
    split; [done|]. split.
    + intros p y. rewrite lookup_insert. case_decide; [done|]. apply Hlive.
    + intros p1 p2 y. rewrite !lookup_insert.
      repeat case_decide; simplify_eq; try done. apply Hinj.
Qed.

Lemma table_inv_unregister x (m m' : gmap string (option watch)) w w' :
  unregister_step x m w = (Done m', w') ->
  table_inv m w -> table_inv m' w'.
Proof.
  rewrite unregister_step_run. intros Hrun (Hsound & Hlt & Hlive & Hinj).
  simplify_eq.
  assert (forall p y, delete x m !! p = Some (Some y) ->
                      p <> x /\ m !! p = Some (Some y)) as Hdel.
  { intros p y. rewrite lookup_delete. case_decide; [done|]. auto. }
  assert (forall p1 p2 y,
             delete x m !! p1 = Some (Some y) ->
             delete x m !! p2 = Some (Some y) -> p1 = p2) as Hinj'.
  { intros p1 p2 y [_ H1]%Hdel [_ H2]%Hdel. by apply (Hinj p1 p2 y). }
  destruct (m !! x) as [[y|]|] eqn:Hmx; unfold table_inv; simpl.
  - destruct (Hlive x y Hmx) as [Hy Hn].
    split; [by apply unschedule_sound_snoc_unschedule|].
    rewrite scheduled_snoc, unscheduled_snoc, app_nil_r.
    split; [done|]. split; [|done].
    intros p z [Hp Hz]%Hdel. destruct (Hlive p z Hz) as [Hz1 Hz2].
    split; [done|].
    intros [?|[= ->]%list_elem_of_singleton]%elem_of_app; [done|].
    apply Hp. by apply (Hinj p x y).
  - split; [done|]. split; [done|]. split; [|done].
    intros p z [_ Hz]%Hdel. by apply (Hlive p z).
  - split; [done|]. split; [done|]. split; [|done].
    intros p z [_ Hz]%Hdel. by apply (Hlive p z).
Qed.

(** A call that is neither [schedule] nor [unschedule], or a change of the
    instance, does not disturb the agreement. *)
Lemma table_inv_tell (m : gmap string (option watch)) w r e :
  (forall x, e <> Unschedule x) ->
  (forall p rec x, e <> Schedule p rec x) ->
  table_inv m w ->
  table_inv m (mkWorld r (log w ++ [e]) (next_watch w)).
Proof.
  intros He1 He2 (Hsound & Hlt & Hlive & Hinj). unfold table_inv. simpl.
  assert (scheduled (log w ++ [e]) = scheduled (log w)) as ->.
  { rewrite scheduled_snoc. destruct e as [| | | | | | |p rec x| |];
      rewrite ?app_nil_r; try done. by destruct (He2 p rec x). }
  assert (unscheduled (log w ++ [e]) = unscheduled (log w)) as ->.
  { rewrite unscheduled_snoc. destruct e; rewrite ?app_nil_r; try done.
    by destruct (He1 watch_obj). }
  split; [by apply unschedule_sound_snoc_other|done].
Qed.

Lemma watch_pass_inv h t (m : gmap string (option watch)) w :
  table_inv m w ->
  exists m' w', watch_pass h t m w = (Done m', w') /\ table_inv m' w'.
Proof.
  intros Hinv.
  destruct (for_each_rule (register_step t)
              (set_order t (_find_watch_paths h (self w) t))
              (fun _ st w' => table_inv st.2 w')
            ) with (st := (dom m, m)) (w := w) as (st & w1 & H1 & Hinv1).
  { intros seen x st0 w0 _ Hinv0.
    assert (exists st' w', register_step t x st0 w0 = (Done st', w'))
      as (st' & w' & Hrun).
    { rewrite register_step_run.
      case_bool_decide; [destruct (can_watch t x)|]; eauto. }
    exists st', w'. split; [done|].
    by apply (table_inv_register t x st0 w0). }
  { done. }
  destruct (for_each_rule unregister_step (set_order t st.1)
              (fun _ m' w' => table_inv m' w')
            ) with (st := st.2) (w := w1) as (m2 & w2 & H2 & Hinv2).
  { intros seen x m0 w0 _ Hinv0. rewrite unregister_step_run.
    eexists _, _. split; [reflexivity|].
    apply (table_inv_unregister x m0 _ w0); [|done].
    by rewrite unregister_step_run. }
  { done. }
  eexists _, _. split; [by apply (watch_pass_run h t m w st w1 m2 w2)|].
  by apply table_inv_tell.
Qed.

Lemma watch_loop_inv h ticks : forall (m : gmap string (option watch)) w,
  table_inv m w ->
  exists m' w', watch_loop h ticks m w = (Done m', w') /\ table_inv m' w'.
Proof.
  induction ticks as [|t ticks IH]; intros m w Hinv; simpl.
  - by exists m, w.
  - unfold bind, get_self. destruct (_watcher_to_stop (self w)).
    { by exists m, w. }
    destruct (watch_pass_inv h t m w Hinv) as (m1 & w1 & -> & Hinv1).
    by apply IH.
Qed.

Lemma table_inv_start r : table_inv ∅ (mkWorld r [] 0).
Proof.
  split; [split; [apply NoDup_nil_2|]|].
  - intros l1 x l2 H. by destruct l1.
  - split; [by intros y ?%elem_of_nil|]. split; by intros ? ? ?.
Qed.

(** C10.  Over any number of iterations of the watcher loop, every call of
    [observer.unschedule] is made with a watch object that an earlier call of
    [observer.schedule] returned, never with [None], and no watch object is
    passed to [observer.unschedule] twice. *)
Theorem unschedule_only_live_watch_objects h ticks r :
  exists m w',
    run_watcher h ticks (mkWorld r [] 0) = (Done m, w') /\
    (None ∉ unscheduled (log w')) /\
    NoDup (unscheduled (log w')) /\
    forall l1 x l2,
      log w' = l1 ++ Unschedule x :: l2 ->
      exists y p recursive,
        x = Some y /\ Schedule p recursive (Some y) ∈ l1.
Proof.
  unfold run_watcher, bind, tell. simpl.
  destruct (watch_loop_inv h ticks ∅ (mkWorld r [ObserverStart] 0))
    as (m & w' & Hrun & [Hnd Hpre] & _).
  { by apply (table_inv_tell ∅ (mkWorld r [] 0) r ObserverStart),
      table_inv_start. }
  exists m, w'. split; [done|]. split; [|split; [done|]].
  - intros (l1 & l2 & Hsplit)%unscheduled_split.
    by destruct (Hpre l1 None l2 Hsplit) as (y & ? & _).
  - intros l1 x l2 Hsplit. destruct (Hpre l1 x l2 Hsplit) as (y & -> & Hy).
    apply elem_scheduled in Hy as (p & rec & Hin). by exists y, p, rec.
Qed.

End WatcherFacts.

(** ** PathSetComputer: further properties of the reduction *)

Module PathSetProps.
Import PyStr PathSet PathSetSpec PathSetFacts.

Lemma ancestor_shorter z x :
  ancestor z x -> length (parts_of z) < length (parts_of x).
Proof.
  intros [Hpre Hne]. pose proof (prefix_length _ _ Hpre) as Hle.
  destruct (decide (length (parts_of x) <= length (parts_of z))) as [Hge|]; [|lia].
  destruct Hne. by apply prefix_length_eq.
Qed.

Lemma ancestor_trans x y z : ancestor x y -> ancestor y z -> ancestor x z.
Proof.
  intros Hxy Hyz. pose proof (ancestor_shorter _ _ Hxy).
  pose proof (ancestor_shorter _ _ Hyz).
  destruct Hxy as [Hxy _], Hyz as [Hyz _]. split; [by etrans|].
  intros Heq. rewrite Heq in *. lia.
Qed.

Lemma covered_by_length paths n : forall x,
  length (parts_of x) <= n -> x ∈ paths ->
  exists z, z ∈ _find_short_paths paths /\ z ∈ paths /\ (z = x \/ ancestor z x).
Proof.
  induction n as [|n IH]; intros x Hn Hx.
  - pose proof (split_nonempty os_path_sep x) as Hne. unfold parts_of in Hn.
    destruct (split os_path_sep x); [done|simpl in Hn; lia].
  - assert (paths <> []) as Hnil by (intros ->; by apply elem_of_nil in Hx).
    destruct (decide (Exists (fun z => ancestor z x) paths)) as [Hex|Hno].
    + apply Exists_exists in Hex as (y & Hy & Hanc).
      destruct (IH y) as (z & Hz & Hzp & Hcov);
        [pose proof (ancestor_shorter _ _ Hanc); lia|done|].
      exists z. split; [done|]. split; [done|]. right.
      destruct Hcov as [->|Hzy]; [done|]. by eapply ancestor_trans.
    + exists x. split; [|by auto]. apply find_short_paths_spec; [done|].
      split; [done|]. intros z Hz Hanc. apply Hno, Exists_exists. by exists z.
Qed.

(** X1.  For a non-empty set of given paths, the reduction returns exactly
    the given paths that have no ancestor among the given paths. *)
Theorem find_short_paths_exact paths x :
  paths <> [] ->
  x ∈ _find_short_paths paths <->
    x ∈ paths /\ forall z, z ∈ paths -> ~ ancestor z x.
Proof. apply find_short_paths_spec. Qed.

(** X1 at the paths [/home] and [/home/aoik]. *)
Lemma find_short_paths_exact_witness :
  "/home" ∈ _find_short_paths ["/home/aoik"; "/home"] <->
    "/home" ∈ ["/home/aoik"; "/home"] /\
    forall z, z ∈ ["/home/aoik"; "/home"] -> ~ ancestor z "/home".
Proof.
  apply (find_short_paths_exact ["/home/aoik"; "/home"] "/home").
  discriminate.
Defined.

(** X2.  Every given path is covered: the reduction contains the path
    itself or one of the given paths that is an ancestor of it. *)
Theorem find_short_paths_covers paths x :
  x ∈ paths ->
  exists z, z ∈ _find_short_paths paths /\ z ∈ paths /\ (z = x \/ ancestor z x).
Proof. intros Hx. by apply (covered_by_length paths (length (parts_of x))). Qed.

(** X2 at the path [/a/b/c] among [/a/b/c], [/a], [/a/b]. *)
Lemma find_short_paths_covers_witness :
  exists z, z ∈ _find_short_paths ["/a/b/c"; "/a"; "/a/b"] /\
            z ∈ ["/a/b/c"; "/a"; "/a/b"] /\
            (z = "/a/b/c" \/ ancestor z "/a/b/c").
Proof.
  apply (find_short_paths_covers ["/a/b/c"; "/a"; "/a/b"] "/a/b/c").
  left.
Defined.



(** X4.  The reduction depends only on which paths are given: listing them
    in another order, or some of them twice, gives the same set. *)
Theorem find_short_paths_order_irrelevant l1 l2 :
  (forall x, x ∈ l1 <-> x ∈ l2) -> _find_short_paths l1 = _find_short_paths l2.
Proof. apply find_short_paths_ext. Qed.

(** X4 at two listings of [/a], [/a/b], [/c]. *)
Lemma find_short_paths_order_irrelevant_witness :
  _find_short_paths ["/a"; "/a/b"; "/c"] =
  _find_short_paths ["/c"; "/a/b"; "/a"; "/c"].
Proof.
  apply (find_short_paths_order_irrelevant
           ["/a"; "/a/b"; "/c"] ["/c"; "/a/b"; "/a"; "/c"]).
  intros x. rewrite !elem_of_cons, elem_of_nil. tauto.
Defined.

(** X5.  Reducing the result of a reduction again gives the same set, for
    every input, the empty one included. *)
Theorem find_short_paths_twice paths l :
  (forall x, x ∈ l <-> x ∈ _find_short_paths paths) ->
  _find_short_paths l = _find_short_paths paths.
Proof. apply find_short_paths_idempotent. Qed.

(** X5 at the reduction of [/a], [/a/b], listed by [elements]. *)
Lemma find_short_paths_twice_witness :
  _find_short_paths (elements (_find_short_paths ["/a"; "/a/b"])) =
  _find_short_paths ["/a"; "/a/b"].
Proof.
  apply (find_short_paths_twice ["/a"; "/a/b"]
           (elements (_find_short_paths ["/a"; "/a/b"]))).
  intros x. apply elem_of_elements.
Defined.

(** X6.  A non-empty set of paths without ancestor pairs is returned as it
    is. *)
Theorem find_short_paths_keeps_unrelated paths :
  paths <> [] ->
  (forall X Y, X ∈ paths -> Y ∈ paths -> ~ ancestor X Y) ->
  _find_short_paths paths = list_to_set paths.
Proof. apply find_short_paths_no_ancestors. Qed.

(** X6 at the paths [/a/b], [/c], [/ab]. *)
Lemma find_short_paths_keeps_unrelated_witness :
  _find_short_paths ["/a/b"; "/c"; "/ab"] = list_to_set ["/a/b"; "/c"; "/ab"].
Proof.
  apply (find_short_paths_keeps_unrelated ["/a/b"; "/c"; "/ab"]).
  - discriminate.
  - intros X Y HX HY.
    repeat (apply elem_of_cons in HX as [->|HX]); [..|by apply elem_of_nil in HX];
      repeat (apply elem_of_cons in HY as [->|HY]);
      try (by apply elem_of_nil in HY);
      apply (bool_decide_unpack _); vm_compute; reflexivity.
Defined.

(** X7.  [_collect_leaf_paths] keeps every path already collected and adds,
    for each leaf below the node, the join of the node's path parts followed
    by the parts that lead to the leaf; a node without children is a leaf
    and adds the join of its own path parts. *)
Theorem collect_leaf_paths_adds_leaves n pp acc x :
  x ∈ _collect_leaf_paths n pp acc <->
    x ∈ acc \/ exists q, leaf n q /\ x = join (pp ++ q).
Proof. apply collect_leaf_paths_spec. Qed.

End PathSetProps.

(** ** ReloadExecutor and ChangeEventFilter: further properties *)

Module ReloaderProps.
Import PyStr PyStrFacts Reloader ReloaderSpec PropsSpec ReloaderFacts.
Local Open Scope reload_scope.

Ltac run_reload :=
  unfold reload, reload_using_exec, reload_using_spawn_exit,
    reload_using_spawn_wait, subprocess_call, subprocess_Popen,
    bind, tell, get_self, put_self, raise, halt, ret; simpl.

Lemma invalid_mode_tests mode :
  mode ∉ RELOAD_MODE_VALUES ->
  String.eqb mode RELOAD_MODE_V_EXEC = false /\
  String.eqb mode RELOAD_MODE_V_SPAWN_EXIT = false /\
  String.eqb mode RELOAD_MODE_V_SPAWN_WAIT = false.
Proof.
  unfold RELOAD_MODE_VALUES. rewrite !not_elem_of_cons, !String.eqb_neq. tauto.
Qed.

(** X8.  [reload] never returns to its caller: it ends in an exception or
    with the process replaced or ended; with a reload mode outside the three
    values it raises [ValueError] with that mode and calls nothing. *)
Theorem reload_never_returns h w :
  (exists s w', reload h w = (Stop s, w')) /\
  (_reload_mode (self w) ∉ RELOAD_MODE_VALUES ->
   reload h w =
     (Stop (Raised (ValueError (_reload_mode (self w)))), entered w)).
Proof.
  split.
  - destruct (reload_stops h w) as (s & w' & Hrun & _). by exists s, w'.
  - intros (E1 & E2 & E3)%invalid_mode_tests.
    unfold reload, bind, tell, get_self, raise, entered. simpl.
    by rewrite E1, E2, E3.
Qed.

(** X8 at an instance whose mode was overwritten with [restart]. *)
Lemma reload_never_returns_witness :
  reload posix_host (watching "restart" ∅ ∅) =
    (Stop (Raised (ValueError "restart")), entered (watching "restart" ∅ ∅)).
Proof.
  apply (proj2 (reload_never_returns posix_host (watching "restart" ∅ ∅))).
  simpl. unfold RELOAD_MODE_VALUES. apply (bool_decide_unpack _). by vm_compute.
Defined.

(** X9.  [reload] changes nothing of the instance but the stop flag, which
    it sets exactly when the mode is [spawn_exit], the child process was
    started and [force_exit] is off; the observer's state is untouched. *)
Theorem reload_changes_only_stop_flag h w :
  self (reload h w).2 =
    with_stop_flag (self w)
      (_watcher_to_stop (self w) ||
       (String.eqb (_reload_mode (self w)) RELOAD_MODE_V_SPAWN_EXIT &&
        popen_ok h && negb (_force_exit (self w)))) /\
  next_watch (reload h w).2 = next_watch w.
Proof.
  destruct w as [[mode fe ep iv wp stop] lg nx]. run_reload.
  destruct (String.eqb_spec mode RELOAD_MODE_V_EXEC) as [->|_]; simpl.
  { destruct (execvpe_ok h); simpl; by rewrite orb_false_r. }
  destruct (String.eqb_spec mode RELOAD_MODE_V_SPAWN_EXIT) as [->|_]; simpl.
  { destruct (popen_ok h), fe, stop; simpl; done. }
  destruct (String.eqb mode RELOAD_MODE_V_SPAWN_WAIT); simpl;
    [destruct (popen_ok h); simpl|]; by rewrite orb_false_r.
Qed.

(** X10.  The calls [reload] makes follow its entry in the log; at most one
    of them starts a process, and it starts the interpreter
    [sys.executable] with the arguments [sys.argv] and the environment
    [os.environ]. *)
Theorem reload_launches_same_invocation h w :
  exists evs,
    log (reload h w).2 = log w ++ CallReload :: evs /\
    Forall (same_invocation h) evs /\
    length (List.filter is_launch evs) <= 1 /\
    reload_calls evs = 0.
Proof.
  run_reload.
  repeat match goal with
         | |- context [if ?c then _ else _] => destruct c; simpl
         end;
    rewrite <- ?app_assoc; simpl; eexists; (split; [reflexivity|]);
    (split; [repeat constructor|]); simpl; split; (lia || reflexivity).
Qed.

(** X11.  In the mode [spawn_exit], [reload] starts the child process
    first.  If that fails, [OSError] propagates and nothing else happens.
    Otherwise, with [force_exit] the process is ended by [os._exit(0)]
    without interrupting the main thread; without it the main thread is
    interrupted, the stop flag is set and [SystemExit(0)] is raised. *)
Theorem spawn_exit_reload_order h w :
  _reload_mode (self w) = RELOAD_MODE_V_SPAWN_EXIT ->
  reload h w =
    let started :=
      log w ++ [CallReload;
                Popen (sys_executable h :: sys_argv h) (os_environ h)] in
    if negb (popen_ok h) then
      (Stop (Raised OSError), mkWorld (self w) started (next_watch w))
    else if _force_exit (self w) then
      (Stop (ProcessExited 0),
       mkWorld (self w) (started ++ [OsExit 0]) (next_watch w))
    else
      (Stop (Raised (SystemExit 0)),
       mkWorld (with_stop_flag (self w) true) (started ++ [InterruptMain])
               (next_watch w)).
Proof.
  intros Hmode. run_reload. rewrite Hmode. simpl.
  destruct (popen_ok h); simpl; [|by rewrite <- app_assoc].
  destruct (_force_exit (self w)); simpl; by rewrite <- !app_assoc.
Qed.

(** X11 on a POSIX host, without [force_exit]. *)
Lemma spawn_exit_reload_order_witness :
  reload posix_host (watching "spawn_exit" ∅ ∅) =
    (Stop (Raised (SystemExit 0)),
     mkWorld (with_stop_flag (self (watching "spawn_exit" ∅ ∅)) true)
       [CallReload; Popen ["/usr/bin/python"; "app.py"] []; InterruptMain] 0).
Proof.
  apply (spawn_exit_reload_order posix_host (watching "spawn_exit" ∅ ∅)).
  reflexivity.
Defined.

(** X12.  In the mode [exec], [reload] calls [os.execvpe] and nothing else:
    the main thread is not interrupted and the instance is unchanged; the
    process image is replaced, or [OSError] propagates when the call fails. *)
Theorem exec_reload_replaces_process h w :
  _reload_mode (self w) = RELOAD_MODE_V_EXEC ->
  reload h w =
    (Stop (if execvpe_ok h then ProcessReplaced else Raised OSError),
     mkWorld (self w)
       (log w ++
          [CallReload;
           Execvpe (sys_executable h) (sys_executable h :: sys_argv h)
                   (os_environ h)])
       (next_watch w)).
Proof.
  intros Hmode. run_reload. rewrite Hmode. simpl.
  destruct (execvpe_ok h); simpl; by rewrite <- app_assoc.
Qed.

(** X12 on a POSIX host. *)
Lemma exec_reload_replaces_process_witness :
  reload posix_host (watching "exec" ∅ ∅) =
    (Stop ProcessReplaced,
     mkWorld (self (watching "exec" ∅ ∅))
       [CallReload;
        Execvpe "/usr/bin/python" ["/usr/bin/python"; "app.py"] []] 0).
Proof.
  apply (exec_reload_replaces_process posix_host (watching "exec" ∅ ∅)).
  reflexivity.
Defined.

(** X28.  In the mode [spawn_wait], [reload] first interrupts the main
    thread, then starts the child process and waits for it to finish, and
    only then raises [SystemExit] in the thread it runs in; when the child
    cannot be started the [OSError] is raised after the interrupt and
    nothing is waited for.  The instance, its stop flag included, is left
    as it was. *)
Theorem spawn_wait_reload_order h w :
  _reload_mode (self w) = RELOAD_MODE_V_SPAWN_WAIT ->
  reload h w =
    (Stop (Raised (if popen_ok h then SystemExit 0 else OSError)),
     mkWorld (self w)
       (log w ++
          [CallReload; InterruptMain;
           Popen (sys_executable h :: sys_argv h) (os_environ h)] ++
          (if popen_ok h then [WaitChild] else []))
       (next_watch w)).
Proof.
  intros Hmode.
  unfold reload, reload_using_spawn_wait, subprocess_call, subprocess_Popen,
    bind, tell, get_self, raise, ret. simpl. rewrite Hmode. simpl.
  destruct (popen_ok h); simpl; by rewrite <- !app_assoc.
Qed.

(** X28 on a POSIX host whose child process starts. *)
Lemma spawn_wait_reload_order_witness :
  reload posix_host (watching "spawn_wait" ∅ {[ "/a" ]}) =
    (Stop (Raised (SystemExit 0)),
     mkWorld (self (watching "spawn_wait" ∅ {[ "/a" ]}))
       [CallReload; InterruptMain; Popen ["/usr/bin/python"; "app.py"] [];
        WaitChild] 0).
Proof.
  apply (spawn_wait_reload_order posix_host (watching "spawn_wait" ∅ {[ "/a" ]})).
  reflexivity.
Defined.

(** X13.  [dispatch] is one call of [reload] when the path is an extra path,
    or has a source-unit suffix and a directory that starts with a watch
    path; otherwise it returns and changes nothing.  It never enters
    [reload] twice. *)
Theorem dispatch_is_reload_or_nothing h ev w :
  dispatch h ev w =
    (if triggers (self w) (src_path ev) then reload h w else (Done tt, w)) /\
  reload_calls (log (dispatch h ev w).2) <= S (reload_calls (log w)).
Proof.
  assert (dispatch h ev w =
            if triggers (self w) (src_path ev) then reload h w
            else (Done tt, w)) as Hrun.
  { unfold triggers. case_bool_decide as Hin; simpl.
    - destruct (reload_stops h w) as (s & w' & Hr & _).
      unfold dispatch, bind, get_self.
      rewrite bool_decide_eq_true_2 by done. by rewrite Hr.
    - by apply dispatch_not_extra. }
  split; [done|]. rewrite Hrun.
  destruct (triggers (self w) (src_path ev)); [|simpl; lia].
  destruct (reload_stops h w) as (s & w' & -> & Hc). simpl. lia.
Qed.

Lemma source_unit_suffix_py pre : source_unit_suffix (pre +:+ ".py") = true.
Proof.
  unfold source_unit_suffix.
  assert (endswith (pre +:+ ".py") ".py" = true) as ->; [|done].
  apply endswith_spec. by exists pre.
Qed.

Lemma source_unit_suffix_compiled pre c :
  c = "c"%char \/ c = "o"%char ->
  source_unit_suffix ((pre +:+ ".py") +:+ String c "") = true.
Proof.
  unfold source_unit_suffix. intros [-> | ->].
  - assert (endswith ((pre +:+ ".py") +:+ "c") ".pyc" = true) as ->;
      [|by rewrite orb_true_r].
    apply endswith_spec. exists pre. by rewrite str_app_assoc.
  - assert (endswith ((pre +:+ ".py") +:+ "o") ".pyo" = true) as ->;
      [|by rewrite orb_true_r].
    apply endswith_spec. exists pre. by rewrite str_app_assoc.
Qed.

(** X14.  A change of the compiled file [x.pyc] or [x.pyo] is handled
    exactly as a change of the source file [x.py] in the same directory,
    when neither path is an extra path. *)
Theorem dispatch_compiled_as_source h pre c w :
  c = "c"%char \/ c = "o"%char ->
  (pre +:+ ".py") ∉ _extra_paths (self w) ->
  ((pre +:+ ".py") +:+ String c "") ∉ _extra_paths (self w) ->
  dispatch h (mkEvent ((pre +:+ ".py") +:+ String c "")) w =
  dispatch h (mkEvent (pre +:+ ".py")) w.
Proof.
  intros Hc Hsrc Hcomp. rewrite !dispatch_not_extra by done. simpl.
  rewrite source_unit_suffix_py, source_unit_suffix_compiled by done.
  rewrite dirname_snoc; [done|]. by destruct Hc as [-> | ->].
Qed.

(** X14 at [/a/b/x.pyc] while [/a] is watched. *)
Lemma dispatch_compiled_as_source_witness :
  dispatch posix_host (mkEvent (("/a/b/x" +:+ ".py") +:+ String "c" ""))
           (watching "exec" ∅ {[ "/a" ]}) =
  dispatch posix_host (mkEvent ("/a/b/x" +:+ ".py"))
           (watching "exec" ∅ {[ "/a" ]}).
Proof.
  apply (dispatch_compiled_as_source posix_host "/a/b/x" "c"%char
           (watching "exec" ∅ {[ "/a" ]})).
  - by left.
  - simpl. apply not_elem_of_empty.
  - simpl. apply not_elem_of_empty.
Defined.

(** X15.  The constructor returns an instance exactly when the reload mode
    is not given or is one of the three values; the instance has the given
    mode, or, when none is given, [spawn_wait] on the platform [win32] and
    [exec] on every other. *)
Theorem init_succeeds_iff h reload_mode force_exit extra_paths interval :
  ((exists r, __init__ h reload_mode force_exit extra_paths interval = inr r) <->
   (reload_mode = None \/
    exists mode, reload_mode = Some mode /\ mode ∈ RELOAD_MODE_VALUES)) /\
  (forall r,
      __init__ h reload_mode force_exit extra_paths interval = inr r ->
      _reload_mode r =
        match reload_mode with
        | Some mode => mode
        | None => if String.eqb (sys_platform h) "win32"
                  then RELOAD_MODE_V_SPAWN_WAIT else RELOAD_MODE_V_EXEC
        end).
Proof.
  split.
  - unfold __init__. split.
    + intros [r Hr]. destruct reload_mode as [mode|]; [|by left].
      right. exists mode. split; [done|].
      case_bool_decide as Hmode; [done|]. first [done|by apply dec_stable].
    + intros [->|(mode & -> & Hmode)].
      * destruct (String.eqb (sys_platform h) "win32");
          (rewrite bool_decide_eq_false_2; [by eexists|]);
          intros Hbad; apply Hbad; unfold RELOAD_MODE_VALUES;
          rewrite !elem_of_cons; tauto.
      * rewrite bool_decide_eq_false_2; [by eexists|]. by intros Hbad.
  - intros r. unfold __init__. case_bool_decide; [done|]. by intros [= <-].
Qed.

(** X15 on a POSIX host with no mode given. *)
Lemma init_succeeds_iff_witness :
  _reload_mode (self (watching "exec" ∅ ∅)) =
    (if String.eqb (sys_platform posix_host) "win32"
     then RELOAD_MODE_V_SPAWN_WAIT else RELOAD_MODE_V_EXEC).
Proof.
  apply (proj2 (init_succeeds_iff posix_host None false None 1%Z)
               (self (watching "exec" ∅ ∅))).
  reflexivity.
Defined.

(** X16.  An instance fresh from the constructor has no watch paths: until
    the watcher publishes some, [dispatch] returns without reloading for
    every path that is not an extra path. *)
Theorem fresh_instance_only_extra_paths
    h reload_mode force_exit extra_paths interval r h' ev w :
  __init__ h reload_mode force_exit extra_paths interval = inr r ->
  self w = r ->
  src_path ev ∉ _extra_paths r ->
  dispatch h' ev w = (Done tt, w).
Proof.
  intros Hinit Hself Hextra.
  assert (_watch_paths r = ∅) as Hwatch.
  { revert Hinit. unfold __init__. case_bool_decide; [done|]. by intros [= <-]. }
  rewrite dispatch_not_extra by by rewrite Hself.
  rewrite Hself, Hwatch, elements_empty. simpl. by rewrite andb_false_r.
Qed.

(** X16 at a change of [/srv/app/main.py] before the first pass. *)
Lemma fresh_instance_only_extra_paths_witness :
  dispatch posix_host (mkEvent "/srv/app/main.py")
           (watching "exec" {[ "/x/config.ini" ]} ∅) =
    (Done tt, watching "exec" {[ "/x/config.ini" ]} ∅).
Proof.
  apply (fresh_instance_only_extra_paths posix_host (Some "exec") false
           (Some ["/x/config.ini"]) 1%Z
           (self (watching "exec" {[ "/x/config.ini" ]} ∅)) posix_host
           (mkEvent "/srv/app/main.py")
           (watching "exec" {[ "/x/config.ini" ]} ∅)).
  - vm_compute. reflexivity.
  - reflexivity.
  - simpl. intros [=]%elem_of_singleton.
Defined.

End ReloaderProps.

(** ** WatchSynchronizer: further properties *)

Module WatcherProps.
Import PyStr PyStrFacts PathSet PathSetSpec PathSetFacts.
Import Reloader ReloaderSpec ReloaderFacts Watcher WatcherSpec WatcherFacts.
Import WatcherThread PropsSpec PathSetProps.
Local Open Scope reload_scope.

Lemma fold_add_elem {A} (f : A -> string) (l : list A) : forall (acc : gset string) x,
  x ∈ fold_left (fun acc e => {[ f e ]} ∪ acc) l acc <->
    x ∈ acc \/ exists e, e ∈ l /\ x = f e.
Proof.
  induction l as [|e l IH]; intros acc x; simpl.
  - split; [by left|]. intros [?|(e & ?%elem_of_nil & _)]; done.
  - rewrite IH, elem_of_union, elem_of_singleton. split.
    + intros [[->|?]|(e' & He' & ->)]; [right|by left|right].
      * exists e. split; [left|done].
      * exists e'. split; [by right|done].
    + intros [?|(e' & [->|He']%elem_of_cons & ->)].
      * left. by right.
      * left. by left.
      * right. by exists e'.
Qed.

Lemma fold_add_some_elem (f : string -> string) (l : list (option string)) :
  forall (acc : gset string) x,
    x ∈ fold_left
          (fun acc o => match o with
                        | Some e => {[ f e ]} ∪ acc
                        | None => acc
                        end) l acc <->
      x ∈ acc \/ exists e, Some e ∈ l /\ x = f e.
Proof.
  induction l as [|o l IH]; intros acc x; simpl.
  - split; [by left|]. intros [?|(e & ?%elem_of_nil & _)]; done.
  - rewrite IH. destruct o as [e|].
    + rewrite elem_of_union, elem_of_singleton. split.
      * intros [[->|?]|(e' & He' & ->)]; [right|by left|right].
        -- exists e. split; [left|done].
        -- exists e'. split; [by right|done].
      * intros [?|(e' & [[= ->]|He']%elem_of_cons & ->)].
        -- left. by right.
        -- left. by left.
        -- right. by exists e'.
    + split.
      * intros [?|(e' & He' & ->)]; [by left|right].
        exists e'. split; [by right|done].
      * intros [?|(e' & [[=]|He']%elem_of_cons & ->)]; [by left|right].
        by exists e'.
Qed.

Lemma elem_candidates h r t x :
  x ∈ candidates h r t <->
    (exists e, e ∈ sys_path t /\ x = abspath h e) \/
    (exists e, e ∈ _extra_paths r /\ x = dirname (abspath h e)) \/
    (exists f, Some f ∈ sys_modules t /\ x = dirname (abspath h f)).
Proof.
  unfold candidates.
  rewrite !elem_of_union, !elem_of_list_to_set, !list_elem_of_fmap,
    list_elem_of_omap.
  split.
  - intros [[(e & -> & He)|(e & -> & He)]|(o & Ho & Hx)].
    + left. by exists e.
    + right. left. exists e. by rewrite <- elem_of_elements.
    + right. right. destruct o as [f|]; [|done]. simpl in Hx.
      injection Hx as <-. by exists f.
  - intros [(e & He & ->)|[(e & He & ->)|(f & Hf & ->)]].
    + left. left. by exists e.
    + left. right. exists e. by rewrite elem_of_elements.
    + right. by exists (Some f).
Qed.

(** [_find_watch_paths] reduces the candidate directories. *)
Lemma find_watch_paths_candidates h r t :
  valid_order (set_order t) ->
  _find_watch_paths h r t =
    _find_short_paths (set_order t (candidates h r t)).
Proof.
  intros Hv. unfold _find_watch_paths. f_equal. f_equal.
  apply set_eq. intros x.
  rewrite fold_add_some_elem, (fold_add_elem (fun e => dirname (abspath h e))).
  rewrite elem_candidates, elem_of_list_to_set, list_elem_of_fmap.
  setoid_rewrite (valid_order_elem _ _ _ Hv). naive_solver.
Qed.

Lemma find_watch_paths_covers h r t c :
  valid_order (set_order t) ->
  c ∈ candidates h r t -> covered (_find_watch_paths h r t) c.
Proof.
  intros Hv Hc. rewrite find_watch_paths_candidates by done.
  destruct (covered_by_length (set_order t (candidates h r t))
              (length (parts_of c)) c)
    as (z & Hz & _ & Hcov); [done|by apply valid_order_elem|].
  by exists z.
Qed.

(** X17.  Every directory of [sys.path], every directory of an extra path
    and every directory of a loaded module's file is covered by the watch
    paths: [_find_watch_paths] returns it or one of its ancestors; and every
    path returned is one of these directories, or the empty path when there
    is none. *)
Theorem find_watch_paths_covers_sources h r t :
  valid_order (set_order t) ->
  (forall e, e ∈ sys_path t -> covered (_find_watch_paths h r t) (abspath h e)) /\
  (forall e, e ∈ _extra_paths r ->
             covered (_find_watch_paths h r t) (dirname (abspath h e))) /\
  (forall f, Some f ∈ sys_modules t ->
             covered (_find_watch_paths h r t) (dirname (abspath h f))) /\
  (forall z, z ∈ _find_watch_paths h r t ->
             z ∈ candidates h r t \/ (candidates h r t = ∅ /\ z = "")).
Proof.
  intros Hv. repeat split.
  - intros e He. apply find_watch_paths_covers; [done|].
    apply elem_candidates. left. by exists e.
  - intros e He. apply find_watch_paths_covers; [done|].
    apply elem_candidates. right. left. by exists e.
  - intros f Hf. apply find_watch_paths_covers; [done|].
    apply elem_candidates. right. right. by exists f.
  - intros z. rewrite find_watch_paths_candidates by done.
    destruct (set_order t (candidates h r t)) as [|c l] eqn:E.
    + rewrite find_short_paths_nil. intros ->%elem_of_singleton. right.
      split; [|done]. apply set_eq. intros x.
      rewrite <- (valid_order_elem _ _ x Hv), E. set_solver.
    + intros [Hz _]%find_short_paths_spec; [|done]. left.
      apply (valid_order_elem _ _ z Hv). by rewrite E.
Qed.

(** X17 at a program in [/srv/app] with a module in [/srv/app/pkg] and
    [/srv/lib] on [sys.path]. *)
Lemma find_watch_paths_covers_sources_witness :
  covered (_find_watch_paths posix_host (self (watching "exec" ∅ ∅)) example_tick)
          (dirname (abspath posix_host "/srv/app/pkg/mod.py")).
Proof.
  apply (proj1 (proj2 (proj2
           (find_watch_paths_covers_sources posix_host
              (self (watching "exec" ∅ ∅)) example_tick
              (fun X => reflexivity (elements X)))))).
  simpl. left.
Defined.

(** X18.  The watch paths depend only on the set of entries of [sys.path],
    the set of module files and the extra paths: not on the order in which
    lists and sets are gone through, on which registrations succeed, or on
    any other attribute of the instance. *)
Theorem find_watch_paths_depends_on_sets h r1 r2 t1 t2 :
  valid_order (set_order t1) ->
  valid_order (set_order t2) ->
  (forall x, x ∈ sys_path t1 <-> x ∈ sys_path t2) ->
  (forall f, Some f ∈ sys_modules t1 <-> Some f ∈ sys_modules t2) ->
  _extra_paths r1 = _extra_paths r2 ->
  _find_watch_paths h r1 t1 = _find_watch_paths h r2 t2.
Proof.
  intros Hv1 Hv2 Hpath Hmod Hextra.
  rewrite !find_watch_paths_candidates by done.
  apply find_short_paths_ext. intros x.
  rewrite !valid_order_elem, !elem_candidates by done.
  rewrite Hextra. setoid_rewrite Hpath. by setoid_rewrite Hmod.
Qed.

(** X18 at two iterations that list [sys.path] in different orders. *)
Lemma find_watch_paths_depends_on_sets_witness :
  _find_watch_paths posix_host (self (watching "exec" ∅ ∅))
    (mkTick ["/srv/app"; "/srv/lib"] [None] elements (fun _ => true)) =
  _find_watch_paths posix_host (self (watching "spawn_wait" ∅ {[ "/x" ]}))
    (mkTick ["/srv/lib"; "/srv/app"; "/srv/lib"] [] elements (fun _ => false)).
Proof.
  apply (find_watch_paths_depends_on_sets posix_host
           (self (watching "exec" ∅ ∅))
           (self (watching "spawn_wait" ∅ {[ "/x" ]}))
           (mkTick ["/srv/app"; "/srv/lib"] [None] elements (fun _ => true))
           (mkTick ["/srv/lib"; "/srv/app"; "/srv/lib"] [] elements
                   (fun _ => false))).
  - intros X. reflexivity.
  - intros X. reflexivity.
  - intros x. simpl. rewrite !elem_of_cons, elem_of_nil. tauto.
  - intros f. simpl. rewrite elem_of_cons, !elem_of_nil. split; [|done].
    by intros [[=]|[]].
  - reflexivity.
Defined.

(** X19.  A pass returns with the new watch paths stored in the instance:
    they are the key set of the registration table, and no other attribute
    of the instance has changed. *)
Theorem watch_pass_publishes_table_keys h t (m : gmap string (option watch)) w :
  valid_order (set_order t) ->
  exists m' w',
    watch_pass h t m w = (Done m', w') /\
    _watch_paths (self w') = dom m' /\
    self w' = published (self w) (_find_watch_paths h (self w) t).
Proof.
  intros Hv.
  destruct (watch_pass_spec h t m w Hv) as (m' & w' & Hrun & Hdom & Hself & _).
  exists m', w'. split; [done|]. split; [|done]. by rewrite Hself, Hdom.
Qed.

(** X19 at a first pass from the empty table. *)
Lemma watch_pass_publishes_table_keys_witness :
  exists m' w',
    watch_pass posix_host example_tick ∅ (watching "exec" ∅ ∅) = (Done m', w') /\
    _watch_paths (self w') = dom m' /\
    self w' =
      published (self (watching "exec" ∅ ∅))
        (_find_watch_paths posix_host (self (watching "exec" ∅ ∅)) example_tick).
Proof.
  apply (watch_pass_publishes_table_keys posix_host example_tick ∅
           (watching "exec" ∅ ∅)).
  intros X. reflexivity.
Defined.

Lemma register_loop_present t xs : forall old (m : gmap string (option watch)) w,
  (forall x, x ∈ xs -> x ∈ dom m) ->
  for_each xs (register_step t) (old, m) w =
    (Done (old ∖ list_to_set xs, m), w).
Proof.
  induction xs as [|x xs IH]; intros old m w Hin; simpl.
  - unfold ret. by rewrite difference_empty_L.
  - unfold bind. rewrite register_step_run. simpl.
    rewrite bool_decide_eq_false_2 by (intros Hx; apply Hx, Hin; left).
    rewrite IH by (intros y Hy; apply Hin; by right).
    by rewrite difference_difference_l_L.
Qed.

Lemma valid_order_empty order : valid_order order -> order ∅ = [].
Proof.
  intros Hv. apply Permutation_nil_r. by rewrite (Hv ∅), elements_empty.
Qed.

(** X20.  A pass over a table whose keys are already the desired set calls
    neither [observer.schedule] nor [observer.unschedule]: the table is
    unchanged and the only call made is the sleep. *)
Theorem watch_pass_stable_is_quiet h t (m : gmap string (option watch)) w :
  valid_order (set_order t) ->
  dom m = _find_watch_paths h (self w) t ->
  watch_pass h t m w =
    (Done m,
     mkWorld (published (self w) (_find_watch_paths h (self w) t))
             (log w ++ [Sleep (_interval (self w))]) (next_watch w)).
Proof.
  intros Hv Hdom.
  apply (watch_pass_run h t m w
           (dom m ∖ list_to_set
                      (set_order t (_find_watch_paths h (self w) t)), m) w m w).
  - apply register_loop_present. intros x Hx.
    rewrite Hdom. by apply (valid_order_elem _ _ x Hv).
  - simpl. rewrite valid_order_to_set, Hdom by done.
    replace (_find_watch_paths h (self w) t ∖ _find_watch_paths h (self w) t)
      with (∅ : gset string) by set_solver.
    by rewrite valid_order_empty.
Qed.

(** X20 at a table that already holds the two desired paths. *)
Lemma watch_pass_stable_is_quiet_witness :
  watch_pass posix_host example_tick
    (<["/srv/app" := Some 0]> (<["/srv/lib" := None]> ∅))
    (watching "exec" ∅ ∅) =
    (Done (<["/srv/app" := Some 0]> (<["/srv/lib" := None]> ∅)),
     mkWorld
       (published (self (watching "exec" ∅ ∅))
          (_find_watch_paths posix_host (self (watching "exec" ∅ ∅))
             example_tick))
       (log (watching "exec" ∅ ∅) ++
          [Sleep (_interval (self (watching "exec" ∅ ∅)))])
       (next_watch (watching "exec" ∅ ∅))).
Proof.
  apply (watch_pass_stable_is_quiet posix_host example_tick
           (<["/srv/app" := Some 0]> (<["/srv/lib" := None]> ∅))
           (watching "exec" ∅ ∅)).
  - intros X. reflexivity.
  - vm_compute. reflexivity.
Defined.

(** The table reached by the watcher loop agrees with the observer. *)
Lemma run_watcher_inv h ticks r :
  exists m w',
    run_watcher h ticks (mkWorld r [] 0) = (Done m, w') /\ table_inv m w'.
Proof.
  unfold run_watcher, bind, tell. simpl.
  apply watch_loop_inv.
  by apply (table_inv_tell ∅ (mkWorld r [] 0) r ObserverStart), table_inv_start.
Qed.

(** X21.  A desired path that is registered keeps its watch object through
    a pass: [observer.schedule] is not called for it again, and its watch
    object is not passed to [observer.unschedule]. *)
Theorem watch_pass_keeps_registered h r ticks t
    (m : gmap string (option watch)) w p y :
  run_watcher h ticks (mkWorld r [] 0) = (Done m, w) ->
  valid_order (set_order t) ->
  p ∈ _find_watch_paths h (self w) t ->
  m !! p = Some (Some y) ->
  exists m' w',
    watch_pass h t m w = (Done m', w') /\
    m' !! p = Some (Some y) /\
    schedule_attempts p (log w') = schedule_attempts p (log w) /\
    Some y ∉ unscheduled (log w').
Proof.
  intros Hrun Hv Hp Hm.
  destruct (run_watcher_inv h ticks r) as (m0 & w0 & Hrun0 & Hinv).
  rewrite Hrun in Hrun0. injection Hrun0 as <- <-.
  destruct (watch_pass_spec h t m w Hv) as (m' & w' & Hpass & _ & _ & Hkeep & _).
  destruct (watch_pass_inv h t m w Hinv) as (m1 & w1 & Hpass1 & Hinv1).
  rewrite Hpass in Hpass1. injection Hpass1 as <- <-.
  destruct (Hkeep p Hp) as [Hl Ha]; [by apply elem_of_dom; exists (Some y)|].
  exists m', w'. split; [done|]. rewrite Hl, Hm. split; [done|].
  split; [done|]. destruct Hinv1 as (_ & _ & Hlive & _).
  apply (Hlive p y). by rewrite Hl.
Qed.

(** X21 at the path [/srv/app], registered by a first iteration. *)
Lemma watch_pass_keeps_registered_witness :
  exists m' w',
    watch_pass posix_host example_tick
      (<["/srv/app" := Some 0]> (<["/srv/lib" := None]> ∅))
      (run_watcher posix_host [example_tick] (mkWorld (self (watching "exec" ∅ ∅)) [] 0)).2 =
      (Done m', w') /\
    m' !! "/srv/app" = Some (Some 0) /\
    schedule_attempts "/srv/app" (log w') =
      schedule_attempts "/srv/app"
        (log (run_watcher posix_host [example_tick]
                (mkWorld (self (watching "exec" ∅ ∅)) [] 0)).2) /\
    Some 0 ∉ unscheduled (log w').
Proof.
  apply (watch_pass_keeps_registered posix_host (self (watching "exec" ∅ ∅))
           [example_tick] example_tick
           (<["/srv/app" := Some 0]> (<["/srv/lib" := None]> ∅))
           (run_watcher posix_host [example_tick]
              (mkWorld (self (watching "exec" ∅ ∅)) [] 0)).2
           "/srv/app" 0).
  - vm_compute. reflexivity.
  - intros X. reflexivity.
  - vm_compute. reflexivity.
  - vm_compute. reflexivity.
Defined.

(** The loop over the desired paths hands a fresh watch object to every new
    path that can be watched. *)
Lemma register_loop_fresh t xs (m : gmap string (option watch)) old w :
  exists st w',
    for_each xs (register_step t) (old, m) w = (Done st, w') /\
    next_watch w <= next_watch w' /\
    (forall e, e ∈ log w -> e ∈ log w') /\
    (forall p, p ∉ dom m -> can_watch t p = true -> p ∈ xs ->
               exists y, st.2 !! p = Some (Some y) /\
                         next_watch w <= y < next_watch w' /\
                         Schedule p true (Some y) ∈ log w').
Proof.
  destruct (for_each_rule (register_step t) xs
              (fun seen st w' =>
                 dom st.2 = dom m ∪ list_to_set seen /\
                 next_watch w <= next_watch w' /\
                 (forall e, e ∈ log w -> e ∈ log w') /\
                 (forall p, p ∉ dom m -> can_watch t p = true -> p ∈ seen ->
                            exists y, st.2 !! p = Some (Some y) /\
                                      next_watch w <= y < next_watch w' /\
                                      Schedule p true (Some y) ∈ log w'))
              ) with (st := (old, m)) (w := w) as (st & w' & Hrun & _ & H).
  - intros seen x [old' m'] w0 _ (Hdom & Hnext & Hmono & Hnew).
    simpl in *. rewrite register_step_run. simpl.
    case_bool_decide as Hx; [destruct (can_watch t x) eqn:Hcan|];
      eexists _, _; (split; [reflexivity|]); simpl;
      rewrite ?dom_insert_L, list_to_set_app_L, ?Hdom; simpl;
      (split; [set_solver|]); (split; [lia|]).
    + assert (x ∉ seen) as Hxs by set_solver. split.
      * intros e He. apply elem_of_app. left. auto.
      * intros p Hp Hcanp [Hin| ->%list_elem_of_singleton]%elem_of_app.
        -- assert (x <> p) by set_solver.
           destruct (Hnew p Hp Hcanp Hin) as (y & Hl & Hy & He).
           exists y. rewrite lookup_insert_ne by done. split; [done|].
           split; [lia|]. apply elem_of_app. by left.
        -- exists (next_watch w0). rewrite lookup_insert_eq. split; [done|].
           split; [lia|]. apply elem_of_app. right.
           by apply list_elem_of_singleton.
    + assert (x ∉ seen) as Hxs by set_solver. split.
      * intros e He. apply elem_of_app. left. auto.
      * intros p Hp Hcanp [Hin| ->%list_elem_of_singleton]%elem_of_app;
          [|congruence].
        assert (x <> p) by set_solver.
        destruct (Hnew p Hp Hcanp Hin) as (y & Hl & Hy & He).
        exists y. rewrite lookup_insert_ne by done. split; [done|].
        split; [done|]. apply elem_of_app. by left.
    + split; [done|].
      intros p Hp Hcanp [Hin| ->%list_elem_of_singleton]%elem_of_app; [auto|].
      apply Hnew; [done..|]. set_solver.
  - simpl. split; [set_solver|]. split; [lia|]. split; [done|].
    by intros p _ _ ?%elem_of_nil.
  - by exists st, w'.
Qed.

(** The loop over the old paths passes the watch object of every path it
    removes to [observer.unschedule], and hands out no watch object. *)
Lemma unregister_loop_calls xs (m : gmap string (option watch)) w :
  exists m' w',
    for_each xs unregister_step m w = (Done m', w') /\
    next_watch w' = next_watch w /\
    (forall x y, x ∈ xs -> m !! x = Some (Some y) ->
                 Unschedule (Some y) ∈ log w').
Proof.
  destruct (for_each_rule unregister_step xs
              (fun seen m' w' =>
                 next_watch w' = next_watch w /\
                 (forall e, e ∈ log w -> e ∈ log w') /\
                 (forall x, x ∉ seen -> m' !! x = m !! x) /\
                 (forall x y, x ∈ seen -> m !! x = Some (Some y) ->
                              Unschedule (Some y) ∈ log w'))
              ) with (st := m) (w := w) as (m' & w' & Hrun & Hnext & _ & _ & H).
  - intros seen x m0 w0 _ (Hnext & Hmono & Hsame & Hcalls).
    rewrite unregister_step_run. eexists _, _. split; [reflexivity|].
    assert (forall e, e ∈ log w0 ->
              e ∈ log match m0 !! x with
                      | Some (Some y) =>
                          mkWorld (self w0) (log w0 ++ [Unschedule (Some y)])
                                  (next_watch w0)
                      | _ => w0
                      end) as Hstep.
    { intros e He. destruct (m0 !! x) as [[y|]|]; simpl; [|done..].
      apply elem_of_app. by left. }
    split; [by destruct (m0 !! x) as [[y|]|]|]. split; [by auto|]. split.
    + intros z Hz. rewrite not_elem_of_app, list_elem_of_singleton in Hz.
      destruct Hz as [Hz1 Hz2]. rewrite lookup_delete_ne by done. auto.
    + intros z y [Hin| ->%list_elem_of_singleton]%elem_of_app Hz.
      * apply Hstep. by apply (Hcalls z y).
      * destruct (decide (x ∈ seen)) as [Hxs|Hxs].
        { apply Hstep. by apply (Hcalls x y). }
        rewrite (Hsame x Hxs), Hz. simpl. apply elem_of_app. right.
        by apply list_elem_of_singleton.
  - split; [done|]. split; [done|]. split; [done|].
    by intros x y ?%elem_of_nil.
  - by exists m', w'.
Qed.

(** X22.  A desired path that is not in the table and can be watched is
    registered by the pass: [observer.schedule] is called for it, and the
    watch object returned, one not handed out before, is entered in the
    table. *)
Theorem watch_pass_registers_new h t (m : gmap string (option watch)) w p :
  valid_order (set_order t) ->
  p ∈ _find_watch_paths h (self w) t ->
  p ∉ dom m ->
  can_watch t p = true ->
  exists m' w' y,
    watch_pass h t m w = (Done m', w') /\
    m' !! p = Some (Some y) /\
    next_watch w <= y < next_watch w' /\
    Schedule p true (Some y) ∈ log w'.
Proof.
  intros Hv Hp Hpm Hcan. set (D := _find_watch_paths h (self w) t).
  destruct (register_loop_fresh t (set_order t D) m (dom m) w)
    as (st & w1 & H1 & Hnext1 & _ & Hnew).
  destruct (register_loop_spec t (set_order t D) m (dom m) w)
    as (st' & w1' & H1' & Hold & _).
  rewrite H1 in H1'. injection H1' as <- <-.
  destruct (unregister_loop_spec (set_order t st.1) st.2 w1)
    as (m2 & w2 & H2 & _ & _ & Hkeep2 & _ & Hmono2).
  destruct (unregister_loop_calls (set_order t st.1) st.2 w1)
    as (m2' & w2' & H2' & Hnext2 & _).
  rewrite H2 in H2'. injection H2' as <- <-.
  destruct (Hnew p Hpm Hcan) as (y & Hl & Hy & He);
    [by apply valid_order_elem|].
  eexists _, _, y. split; [by apply (watch_pass_run h t m w st w1 m2 w2)|].
  simpl. split; [|split; [lia|]].
  - rewrite Hkeep2; [done|]. rewrite valid_order_elem, Hold by done.
    rewrite valid_order_to_set by done. set_solver.
  - apply elem_of_app. left. by apply Hmono2.
Qed.

(** X22 at the path [/srv/app] in a first pass. *)
Lemma watch_pass_registers_new_witness :
  exists m' w' y,
    watch_pass posix_host example_tick ∅ (watching "exec" ∅ ∅) = (Done m', w') /\
    m' !! "/srv/app" = Some (Some y) /\
    next_watch (watching "exec" ∅ ∅) <= y < next_watch w' /\
    Schedule "/srv/app" true (Some y) ∈ log w'.
Proof.
  apply (watch_pass_registers_new posix_host example_tick ∅
           (watching "exec" ∅ ∅) "/srv/app").
  - intros X. reflexivity.
  - vm_compute. reflexivity.
  - rewrite dom_empty_L. apply not_elem_of_empty.
  - reflexivity.
Defined.

(** X23.  A path of the table that is no longer desired is removed by the
    pass, and when its entry is a watch object, that object is passed to
    [observer.unschedule]. *)
Theorem watch_pass_unregisters_old h t (m : gmap string (option watch)) w p :
  valid_order (set_order t) ->
  p ∈ dom m ->
  p ∉ _find_watch_paths h (self w) t ->
  exists m' w',
    watch_pass h t m w = (Done m', w') /\
    m' !! p = None /\
    (forall y, m !! p = Some (Some y) -> Unschedule (Some y) ∈ log w').
Proof.
  intros Hv Hpm Hp. set (D := _find_watch_paths h (self w) t).
  destruct (register_loop_spec t (set_order t D) m (dom m) w)
    as (st & w1 & H1 & Hold & Hdom & _ & Hkeep1 & _).
  destruct (unregister_loop_spec (set_order t st.1) st.2 w1)
    as (m2 & w2 & H2 & Hdom2 & _).
  destruct (unregister_loop_calls (set_order t st.1) st.2 w1)
    as (m2' & w2' & H2' & _ & Hcalls).
  rewrite H2 in H2'. injection H2' as <- <-.
  assert (p ∈ st.1) as Hold1.
  { rewrite Hold, valid_order_to_set by done. by apply elem_of_difference. }
  assert (p ∈ set_order t st.1) as Hin by by apply valid_order_elem.
  eexists _, _. split; [by apply (watch_pass_run h t m w st w1 m2 w2)|].
  simpl. split.
  - apply not_elem_of_dom. rewrite Hdom2, valid_order_to_set by done.
    intros [_ Hn]%elem_of_difference. by apply Hn.
  - intros y Hy. apply elem_of_app. left. apply (Hcalls p y Hin).
    destruct (Hkeep1 p Hpm) as [-> _]. done.
Qed.

(** X23 at the path [/srv/app], which leaves the desired set. *)
Lemma watch_pass_unregisters_old_witness :
  exists m' w',
    watch_pass posix_host other_tick
      (<["/srv/app" := Some 0]> (<["/srv/lib" := None]> ∅))
      (watching "exec" ∅ ∅) = (Done m', w') /\
    m' !! "/srv/app" = None /\
    (forall y,
        (<["/srv/app" := Some 0]> (<["/srv/lib" := None]> ∅) : gmap _ _)
          !! "/srv/app" = Some (Some y) ->
        Unschedule (Some y) ∈ log w').
Proof.
  apply (watch_pass_unregisters_old posix_host other_tick
           (<["/srv/app" := Some 0]> (<["/srv/lib" := None]> ∅))
           (watching "exec" ∅ ∅) "/srv/app").
  - intros X. reflexivity.
  - apply elem_of_dom. by exists (Some 0).
  - intros H. vm_compute in H. discriminate H.
Defined.

Lemma no_leak_register t x st w st' w' :
  register_step t x st w = (Done st', w') ->
  no_leak st.2 w -> no_leak st'.2 w'.
Proof.
  rewrite register_step_run. intros Hrun Hleak.
  case_bool_decide as Hx; [destruct (can_watch t x)|]; simplify_eq;
    unfold no_leak; simpl; [| |done].
  - intros y. rewrite scheduled_snoc, unscheduled_snoc, app_nil_r.
    intros [Hy| ->%list_elem_of_singleton]%elem_of_app.
    + destruct (Hleak y Hy) as [?|(p & Hp)]; [by left|right].
      exists p. rewrite lookup_insert_ne; [done|]. intros <-.
      apply Hx. apply elem_of_dom. by eexists.
    + right. exists x. by rewrite lookup_insert_eq.
  - intros y. rewrite scheduled_snoc, unscheduled_snoc, !app_nil_r.
    intros Hy. destruct (Hleak y Hy) as [?|(p & Hp)]; [by left|right].
    exists p. rewrite lookup_insert_ne; [done|]. intros <-.
    apply Hx. apply elem_of_dom. by eexists.
Qed.

Lemma no_leak_unregister x (m m' : gmap string (option watch)) w w' :
  unregister_step x m w = (Done m', w') ->
  no_leak m w -> no_leak m' w'.
Proof.
  rewrite unregister_step_run. intros Hrun Hleak. simplify_eq.
  destruct (m !! x) as [[y0|]|] eqn:Hmx; unfold no_leak; simpl.
  - intros y. rewrite scheduled_snoc, unscheduled_snoc, app_nil_r.
    intros Hy. destruct (Hleak y Hy) as [?|(p & Hp)].
    + left. apply elem_of_app. by left.
    + destruct (decide (p = x)) as [->|Hne].
      * left. apply elem_of_app. right. apply list_elem_of_singleton.
        congruence.
      * right. exists p. by rewrite lookup_delete_ne.
  - intros y Hy. destruct (Hleak y Hy) as [?|(p & Hp)]; [by left|right].
    exists p. rewrite lookup_delete_ne; [done|]. intros ->. congruence.
  - intros y Hy. destruct (Hleak y Hy) as [?|(p & Hp)]; [by left|right].
    exists p. rewrite lookup_delete_ne; [done|]. intros ->. congruence.
Qed.

Lemma no_leak_tell (m : gmap string (option watch)) w r e :
  (forall x, e <> Unschedule x) ->
  (forall p rec x, e <> Schedule p rec x) ->
  no_leak m w -> no_leak m (mkWorld r (log w ++ [e]) (next_watch w)).
Proof.
  intros He1 He2 Hleak. unfold no_leak. simpl.
  assert (scheduled (log w ++ [e]) = scheduled (log w)) as ->.
  { rewrite scheduled_snoc. destruct e as [| | | | | | |p rec x| |];
      rewrite ?app_nil_r; try done. by destruct (He2 p rec x). }
  assert (unscheduled (log w ++ [e]) = unscheduled (log w)) as ->; [|done].
  rewrite unscheduled_snoc. destruct e; rewrite ?app_nil_r; try done.
  by destruct (He1 watch_obj).
Qed.

Lemma watch_pass_no_leak h t (m : gmap string (option watch)) w :
  table_inv m w -> no_leak m w ->
  exists m' w',
    watch_pass h t m w = (Done m', w') /\ table_inv m' w' /\ no_leak m' w'.
Proof.
  intros Hinv Hleak.
  destruct (for_each_rule (register_step t)
              (set_order t (_find_watch_paths h (self w) t))
              (fun _ st w' => table_inv st.2 w' /\ no_leak st.2 w')
            ) with (st := (dom m, m)) (w := w) as (st & w1 & H1 & Hinv1 & Hleak1).
  { intros seen x st0 w0 _ [Hinv0 Hleak0].
    assert (exists st' w', register_step t x st0 w0 = (Done st', w'))
      as (st' & w' & Hrun).
    { rewrite register_step_run.
      case_bool_decide; [destruct (can_watch t x)|]; eauto. }
    exists st', w'. split; [done|]. split.
    - by apply (table_inv_register t x st0 w0).
    - by apply (no_leak_register t x st0 w0). }
  { done. }
  destruct (for_each_rule unregister_step (set_order t st.1)
              (fun _ m' w' => table_inv m' w' /\ no_leak m' w')
            ) with (st := st.2) (w := w1) as (m2 & w2 & H2 & Hinv2 & Hleak2).
  { intros seen x m0 w0 _ [Hinv0 Hleak0]. rewrite unregister_step_run.
    eexists _, _. split; [reflexivity|]. split.
    - apply (table_inv_unregister x m0 _ w0); [|done].
      by rewrite unregister_step_run.
    - apply (no_leak_unregister x m0 _ w0); [|done].
      by rewrite unregister_step_run. }
  { done. }
  eexists _, _. split; [by apply (watch_pass_run h t m w st w1 m2 w2)|].
  split; [by apply table_inv_tell|by apply no_leak_tell].
Qed.

Lemma watch_loop_no_leak h ticks : forall (m : gmap string (option watch)) w,
  table_inv m w -> no_leak m w ->
  exists m' w',
    watch_loop h ticks m w = (Done m', w') /\ table_inv m' w' /\ no_leak m' w'.
Proof.
  induction ticks as [|t ticks IH]; intros m w Hinv Hleak; simpl.
  - by exists m, w.
  - unfold bind, get_self. destruct (_watcher_to_stop (self w)).
    { by exists m, w. }
    destruct (watch_pass_no_leak h t m w Hinv Hleak)
      as (m1 & w1 & -> & Hinv1 & Hleak1).
    by apply IH.
Qed.

Lemma run_watcher_no_leak h ticks r :
  exists m w',
    run_watcher h ticks (mkWorld r [] 0) = (Done m, w') /\
    forall y,
      (exists p, m !! p = Some (Some y)) <->
      (y ∈ scheduled (log w') /\ Some y ∉ unscheduled (log w')).
Proof.
  unfold run_watcher, bind, tell. simpl.
  destruct (watch_loop_no_leak h ticks ∅ (mkWorld r [ObserverStart] 0))
    as (m & w' & Hrun & (Hsound & Hlt & Hlive & _) & Hleak).
  { by apply (table_inv_tell ∅ (mkWorld r [] 0) r ObserverStart),
      table_inv_start. }
  { intros y Hy. simpl in Hy. by apply elem_of_nil in Hy. }
  exists m, w'. split; [done|]. intros y. split.
  - intros [p Hp]. by apply (Hlive p y).
  - intros [Hy Hn]. by destruct (Hleak y Hy).
Qed.

(** X24.  Whenever the watcher loop has gone through a number of iterations
    and left the table [m], the watch objects held in [m] are exactly those
    the observer returned and that have not been unscheduled: no
    registration is leaked and none is kept after its removal. *)
Theorem run_watcher_table_is_live_watches h ticks r
    (m : gmap string (option watch)) w' :
  run_watcher h ticks (mkWorld r [] 0) = (Done m, w') ->
  forall y,
    (exists p, m !! p = Some (Some y)) <->
    (y ∈ scheduled (log w') /\ Some y ∉ unscheduled (log w')).
Proof.
  intros Hrun.
  destruct (run_watcher_no_leak h ticks r) as (m0 & w0 & Hrun0 & H).
  rewrite Hrun in Hrun0. by inversion Hrun0; subst.
Qed.

(** X24 over three iterations on a POSIX host, in which [/srv/app] is
    watched, unwatched and watched again. *)
Lemma run_watcher_table_is_live_watches_witness :
  exists m w',
    run_watcher posix_host [example_tick; other_tick; example_tick]
      (watching "exec" ∅ ∅) = (Done m, w') /\
    forall y,
      (exists p, m !! p = Some (Some y)) <->
      (y ∈ scheduled (log w') /\ Some y ∉ unscheduled (log w')).
Proof.
  destruct (run_watcher_inv posix_host [example_tick; other_tick; example_tick]
              (self (watching "exec" ∅ ∅))) as (m & w' & Hrun & _).
  exists m, w'. split; [exact Hrun|].
  exact (run_watcher_table_is_live_watches posix_host
           [example_tick; other_tick; example_tick]
           (self (watching "exec" ∅ ∅)) m w' Hrun).
Defined.

Lemma watch_loop_stopped h ticks (m : gmap string (option watch)) w :
  _watcher_to_stop (self w) = true -> watch_loop h ticks m w = (Done m, w).
Proof.
  intros Hstop. destruct ticks as [|t ticks]; simpl; [done|].
  unfold bind, get_self. by rewrite Hstop.
Qed.

(** X25.  After a reload in the mode [spawn_exit] that started the child
    process without [force_exit], the stop flag is set, and the watcher
    loop makes no further pass: whatever iterations are left, it returns its
    table without a call. *)
Theorem spawn_exit_stops_watcher h h' ticks
    (m : gmap string (option watch)) w :
  _reload_mode (self w) = RELOAD_MODE_V_SPAWN_EXIT ->
  popen_ok h = true ->
  _force_exit (self w) = false ->
  _watcher_to_stop (self (reload h w).2) = true /\
  watch_loop h' ticks m (reload h w).2 = (Done m, (reload h w).2).
Proof.
  intros Hmode Hok Hforce.
  assert (_watcher_to_stop (self (reload h w).2) = true) as Hstop.
  { unfold reload, reload_using_spawn_exit, subprocess_Popen,
      bind, tell, get_self, put_self, raise, ret. simpl.
    rewrite Hmode. simpl. rewrite Hok. simpl. by rewrite Hforce. }
  split; [done|]. by apply watch_loop_stopped.
Qed.

(** X25 on a POSIX host with two iterations left. *)
Lemma spawn_exit_stops_watcher_witness :
  _watcher_to_stop
    (self (reload posix_host (watching "spawn_exit" ∅ ∅)).2) = true /\
  watch_loop posix_host [example_tick; other_tick] ∅
    (reload posix_host (watching "spawn_exit" ∅ ∅)).2 =
    (Done ∅, (reload posix_host (watching "spawn_exit" ∅ ∅)).2).
Proof.
  apply (spawn_exit_stops_watcher posix_host posix_host
           [example_tick; other_tick] ∅ (watching "spawn_exit" ∅ ∅)).
  - reflexivity.
  - reflexivity.
  - reflexivity.
Defined.

(** C9.  In the mode [spawn_wait] a reload whose child process starts
    interrupts the main thread, starts the child, waits for it and raises
    [SystemExit] in the thread that called it, and it leaves the stop flag
    as it is.  The watcher thread, which is not a daemon thread in this
    mode and whose loop never enters [reload] itself, is therefore neither
    held nor told to stop: whatever iterations are left, its loop makes a
    pass at each of them, and the flag is still unset at the end. *)
Theorem spawn_wait_reload_leaves_watcher_running h ticks
    (m : gmap string (option watch)) w :
  _reload_mode (self w) = RELOAD_MODE_V_SPAWN_WAIT ->
  popen_ok h = true ->
  _watcher_to_stop (self w) = false ->
  exists w' m2 w2,
    reload h w = (Stop (Raised (SystemExit 0)), w') /\
    log w' =
      log w ++ [CallReload; InterruptMain;
                Popen (sys_executable h :: sys_argv h) (os_environ h);
                WaitChild] /\
    _watcher_to_stop (self w') = false /\
    daemon (start_watcher_thread (self w')) = false /\
    watch_loop h ticks m w' = (Done m2, w2) /\
    passes_made (log w2) = passes_made (log w') + length ticks /\
    reload_calls (log w2) = reload_calls (log w') /\
    _watcher_to_stop (self w2) = false.
Proof.
  intros Hmode Hok Hflag.
  assert (reload h w =
            (Stop (Raised (SystemExit 0)),
             mkWorld (self w)
               (log w ++ [CallReload; InterruptMain;
                          Popen (sys_executable h :: sys_argv h) (os_environ h);
                          WaitChild])
               (next_watch w))) as Hrun.
  { unfold reload, reload_using_spawn_wait, subprocess_call, subprocess_Popen,
      bind, tell, get_self, raise, ret. simpl. rewrite Hmode. simpl.
    rewrite Hok. simpl. by rewrite <- !app_assoc. }
  destruct (watch_loop_counts h ticks m
              (mkWorld (self w)
                 (log w ++ [CallReload; InterruptMain;
                            Popen (sys_executable h :: sys_argv h) (os_environ h);
                            WaitChild])
                 (next_watch w)))
    as (m2 & w2 & Hloop & Hf & Hp & Hr); [done|].
  eexists _, m2, w2. split; [exact Hrun|]. simpl.
  split; [done|]. split; [done|].
  split; [unfold start_watcher_thread; simpl; by rewrite Hmode|].
  done.
Qed.

(** C9 on a POSIX host, with two iterations of the watcher loop after the
    reload. *)
Lemma spawn_wait_reload_leaves_watcher_running_witness :
  exists w' m2 w2,
    reload posix_host (watching "spawn_wait" ∅ {[ "/srv/app" ]}) =
      (Stop (Raised (SystemExit 0)), w') /\
    log w' =
      [CallReload; InterruptMain; Popen ["/usr/bin/python"; "app.py"] [];
       WaitChild] /\
    _watcher_to_stop (self w') = false /\
    daemon (start_watcher_thread (self w')) = false /\
    watch_loop posix_host [app_only_tick; example_tick]
      {[ "/srv/app" := Some 0 ]} w' = (Done m2, w2) /\
    passes_made (log w2) = passes_made (log w') + 2 /\
    reload_calls (log w2) = reload_calls (log w') /\
    _watcher_to_stop (self w2) = false.
Proof.
  apply (spawn_wait_reload_leaves_watcher_running posix_host
           [app_only_tick; example_tick] {[ "/srv/app" := Some 0 ]}
           (watching "spawn_wait" ∅ {[ "/srv/app" ]})).
  - reflexivity.
  - reflexivity.
  - reflexivity.
Defined.

(** A path starts, as a string, with each of its ancestors. *)
Lemma ancestor_startswith z c : ancestor z c -> startswith c z = true.
Proof.
  intros [[k Hk] Hne]. apply startswith_spec.
  assert (k <> []) as Hnil.
  { intros ->. rewrite app_nil_r in Hk. by destruct Hne. }
  exists ("/" +:+ join k).
  rewrite <- (join_split c), <- (join_split z) at 1.
  fold (parts_of c). fold (parts_of z). rewrite Hk.
  apply join_app; [apply split_nonempty|done].
Qed.

Lemma startswith_trans d c z :
  startswith d c = true -> startswith c z = true -> startswith d z = true.
Proof.
  intros [t1 ->]%startswith_spec [t2 ->]%startswith_spec.
  apply startswith_spec. exists (t2 +:+ t1). by rewrite str_app_assoc.
Qed.

(** X26.  After a pass, a change of a file with a source-unit suffix in a
    directory of [sys.path], of an extra path or of a loaded module, or in
    a directory nested under one of them, makes [dispatch] enter [reload]
    exactly once. *)
Theorem source_change_after_pass_reloads
    h t (m m' : gmap string (option watch)) w w' c h' ev :
  valid_order (set_order t) ->
  watch_pass h t m w = (Done m', w') ->
  c ∈ candidates h (self w) t ->
  source_unit_suffix (src_path ev) = true ->
  is_or_under (dirname (src_path ev)) c = true ->
  reload_calls (log (dispatch h' ev w').2) = S (reload_calls (log w')).
Proof.
  intros Hv Hpass Hc Hsuf Hunder.
  destruct (watch_pass_spec h t m w Hv) as (m1 & w1 & Hpass1 & _ & Hself & _).
  rewrite Hpass in Hpass1. injection Hpass1 as <- <-.
  destruct (find_watch_paths_covers h (self w) t c Hv Hc) as (z & Hz & Hcov).
  assert (startswith (dirname (src_path ev)) z = true) as Hsw.
  { apply is_or_under_startswith in Hunder.
    destruct Hcov as [->|Hanc]; [done|].
    eapply startswith_trans; [exact Hunder|]. by apply ancestor_startswith. }
  destruct (decide (src_path ev ∈ _extra_paths (self w'))) as [Hin|Hin].
  - destruct (dispatch_extra h' ev w' Hin) as (s & w2 & -> & Hcount). done.
  - rewrite dispatch_not_extra, Hsuf by done.
    rewrite (startswith_any_elem _ _ z); [|by rewrite Hself|done].
    simpl. destruct (reload_stops h' w') as (s & w2 & -> & Hcount). done.
Qed.

(** X26 at a change of [/srv/app/pkg/sub/x.pyc] after a first pass. *)
Lemma source_change_after_pass_reloads_witness :
  reload_calls
    (log (dispatch posix_host (mkEvent "/srv/app/pkg/sub/x.pyc")
            (watch_pass posix_host example_tick ∅ (watching "exec" ∅ ∅)).2).2) =
  S (reload_calls
       (log (watch_pass posix_host example_tick ∅ (watching "exec" ∅ ∅)).2)).
Proof.
  apply (source_change_after_pass_reloads posix_host example_tick ∅
           (<["/srv/app" := Some 0]> (<["/srv/lib" := None]> ∅))
           (watching "exec" ∅ ∅)
           (watch_pass posix_host example_tick ∅ (watching "exec" ∅ ∅)).2
           "/srv/app/pkg" posix_host (mkEvent "/srv/app/pkg/sub/x.pyc")).
  - intros X. reflexivity.
  - vm_compute. reflexivity.
  - vm_compute. reflexivity.
  - vm_compute. reflexivity.
  - vm_compute. reflexivity.
Defined.

(** X27.  The watcher thread of an instance the constructor returned has
    the watcher loop [run_watcher] as its target and is started, and it is
    a daemon thread unless the reload mode is [spawn_wait]; with no mode
    given it is therefore a daemon thread except on the platform [win32]. *)
Theorem watcher_thread_daemon_unless_spawn_wait
    h reload_mode force_exit extra_paths interval r :
  __init__ h reload_mode force_exit extra_paths interval = inr r ->
  target (start_watcher_thread r) = run_watcher /\
  started (start_watcher_thread r) = true /\
  (daemon (start_watcher_thread r) = false <->
   _reload_mode r = RELOAD_MODE_V_SPAWN_WAIT) /\
  (reload_mode = None ->
   (daemon (start_watcher_thread r) = false <-> sys_platform h = "win32")).
Proof.
  intros Hinit. split; [done|]. split; [done|].
  unfold start_watcher_thread. simpl.
  assert ((if String.eqb (_reload_mode r) RELOAD_MODE_V_SPAWN_WAIT
           then false else true) = false <->
          _reload_mode r = RELOAD_MODE_V_SPAWN_WAIT) as Hd.
  { destruct (String.eqb_spec (_reload_mode r) RELOAD_MODE_V_SPAWN_WAIT);
      split; done. }
  split; [done|]. intros ->. rewrite Hd.
  revert Hinit. unfold __init__.
  destruct (String.eqb_spec (sys_platform h) "win32") as [Hw|Hw];
    (case_bool_decide; [done|]); intros [= <-]; simpl; split; done.
Qed.

(** X27 on a POSIX host with no mode given. *)
Lemma watcher_thread_daemon_unless_spawn_wait_witness :
  target (start_watcher_thread (self (watching "exec" ∅ ∅))) = run_watcher /\
  (daemon (start_watcher_thread (self (watching "exec" ∅ ∅))) = false <->
   sys_platform posix_host = "win32").
Proof.
  destruct (watcher_thread_daemon_unless_spawn_wait posix_host None false None
              1%Z (self (watching "exec" ∅ ∅)) eq_refl)
    as (Htarget & _ & _ & Hnone).
  split; [exact Htarget|exact (Hnone eq_refl)].
Defined.

End WatcherProps.
